(** * DevTools front-end: trace initiators, array utilities, the BiDi frame
      and the visual-logging driver

    A shallow embedding of four pieces of the repository:
    - [TimelineInitiators]: the initiator pairs drawn on the flame chart;
    - [ArrayUtilities]: [removeElement] and [sortRange], with their unit test;
    - [BidiFrameModel]: disposal and [exposeFunction] of the BiDi frame;
    - [LoggingDriver]: the visual-logging driver. *)

From stdpp Require Import gmap strings list sorting.
From Stdlib Require Import ZArith Lia.

Local Open Scope nat_scope.
Set Warnings "-clear-no-such-hyp".

(* ===================================================================== *)
(** * Initiator pairs of the performance flame chart *)
(* ===================================================================== *)

Module TimelineInitiators.

(** A trace event is a JavaScript object; the maps of the trace engine are
    keyed by object identity, which is all the code looks at. *)
Abbreviation TraceEventData := positive (only parsing).

(** A node of the renderer's entry tree, with its parent pointer. *)
#[warnings="-register-all"]
Inductive TraceEntryNode : Type :=
  mkNode { entry : TraceEventData; parent : option TraceEntryNode }.

Record InitiatorsData : Type := {
  eventToInitiator : gmap TraceEventData TraceEventData;
  initiatorToEvents : gmap TraceEventData (list TraceEventData)
}.

Record RendererData : Type := {
  entryToNode : gmap TraceEventData TraceEntryNode
}.

Record TraceParseData : Type := {
  Initiators : InitiatorsData;
  Renderer : RendererData
}.

Record InitiatorPair : Type := {
  event : TraceEventData;
  initiator : TraceEventData
}.

(** ** A trace with a parent step, an initiator and two successors *)

Definition sampleSynthetic (e : TraceEventData) : bool := bool_decide (e = 1%positive).

Definition sampleTrace : TraceParseData := {|
  Initiators := {|
    eventToInitiator := {[ 2%positive := 3%positive ]};
    initiatorToEvents := {[ 1%positive := [4%positive; 5%positive] ]}
  |};
  Renderer := {|
    entryToNode :=
      {[ 1%positive :=
           mkNode 1%positive (Some (mkNode 2%positive None)) ]}
  |}
|}.

(** A trace whose only event is its own initiator. *)
Definition selfInitiatedTrace : TraceParseData := {|
  Initiators := {|
    eventToInitiator := {[ 1%positive := 1%positive ]};
    initiatorToEvents := ∅
  |};
  Renderer := {| entryToNode := ∅ |}
|}.

Section WithTypeGuard.

(** [TraceEngine.Types.TraceEvents.isSyntheticTraceEntry] is a type guard of
    the trace engine; it is a parameter here. *)
Variable isSyntheticTraceEntry : TraceEventData → bool.

(** The [while (currentEvent)] loop of [findEventInitiatorPairsPredecessors].
    [fuel] bounds the number of times the body runs; the result is [None]
    when the loop is still running after [fuel] iterations.  Next to the
    pairs the loop returns the number of iterations it made. *)
Fixpoint predecessorsLoop (fuel : nat) (traceEngineData : TraceParseData)
    (currentEvent : option TraceEventData) (pairs : list InitiatorPair)
    (iterations : nat) : option (list InitiatorPair * nat) :=
  match currentEvent with
  | None => Some (pairs, iterations)
  | Some current =>
    match fuel with
    | O => None
    | S fuel' =>
      match eventToInitiator (Initiators traceEngineData) !! current with
      | Some currentInitiator =>
          predecessorsLoop fuel' traceEngineData (Some currentInitiator)
            (pairs ++ [{| event := current; initiator := currentInitiator |}])
            (S iterations)
      | None =>
        if negb (isSyntheticTraceEntry current) then
          Some (pairs, S iterations)
        else
          match entryToNode (Renderer traceEngineData) !! current with
          | None => Some (pairs, S iterations)
          | Some nodeForCurrentEvent =>
              predecessorsLoop fuel' traceEngineData
                (entry <$> parent nodeForCurrentEvent) pairs (S iterations)
          end
      end
    end
  end.

Definition findEventInitiatorPairsPredecessors (fuel : nat)
    (traceEngineData : TraceParseData) (selectedEvent : TraceEventData)
    : option (list InitiatorPair) :=
  fst <$> predecessorsLoop fuel traceEngineData (Some selectedEvent) [] 0.

Definition findEventInitiatorPairsDirectSuccessors
    (traceEngineData : TraceParseData) (selectedEvent : TraceEventData)
    : list InitiatorPair :=
  match initiatorToEvents (Initiators traceEngineData) !! selectedEvent with
  | Some eventsInitiatedByCurrent =>
      (λ ev, {| event := ev; initiator := selectedEvent |})
        <$> eventsInitiatedByCurrent
  | None => []
  end.

Definition eventInitiatorPairsToDraw (fuel : nat)
    (traceEngineData : TraceParseData) (selectedEvent : TraceEventData)
    : option (list InitiatorPair) :=
  predecessors ← findEventInitiatorPairsPredecessors fuel traceEngineData
                   selectedEvent;
  Some (predecessors
        ++ findEventInitiatorPairsDirectSuccessors traceEngineData selectedEvent).

(** ** The walk, as the specification describes it *)

(** One step of the combined relation: an event goes to its initiator or,
    when it has none and is a synthetic entry, to its parent entry. *)
Definition parentEntry (d : TraceParseData) (e : TraceEventData)
    : option TraceEventData :=
  if isSyntheticTraceEntry e then
    node ← entryToNode (Renderer d) !! e;
    entry <$> parent node
  else None.

Definition walkStep (d : TraceParseData) (e : TraceEventData)
    : option TraceEventData :=
  match eventToInitiator (Initiators d) !! e with
  | Some i => Some i
  | None => parentEntry d e
  end.

(** [walkSteps d k e] follows the relation [k] times. *)
Fixpoint walkSteps (d : TraceParseData) (k : nat) (e : TraceEventData)
    : option TraceEventData :=
  match k with
  | O => Some e
  | S k' => e' ← walkStep d e; walkSteps d k' e'
  end.

Definition acyclic (d : TraceParseData) : Prop :=
  ∀ e k, 0 < k → walkSteps d k e ≠ Some e.

(** [depth d e n]: the walk from [e] visits [n] events, [e] included, before
    it reaches an event without a successor. *)
Inductive depth (d : TraceParseData) : TraceEventData → nat → Prop :=
  | depth_last e : walkStep d e = None → depth d e 1
  | depth_step e e' n :
      walkStep d e = Some e' → depth d e' n → depth d e (S n).

(** [initiatorChain d e ps]: [ps] are the pairs met on the walk from [e], in
    the order of the walk. *)
Inductive initiatorChain (d : TraceParseData)
    : TraceEventData → list InitiatorPair → Prop :=
  | chain_end e : walkStep d e = None → initiatorChain d e []
  | chain_initiator e i ps :
      eventToInitiator (Initiators d) !! e = Some i →
      initiatorChain d i ps →
      initiatorChain d e ({| event := e; initiator := i |} :: ps)
  | chain_parent e p ps :
      eventToInitiator (Initiators d) !! e = None →
      parentEntry d e = Some p →
      initiatorChain d p ps →
      initiatorChain d e ps.

(** ** What the walk comes to *)

(** [reaches d e e']: the walk from [e] comes to [e']. *)
Definition reaches (d : TraceParseData) (e e' : TraceEventData) : Prop :=
  ∃ k, walkSteps d k e = Some e'.

(** [onCycle d e]: the walk from [e] comes back to [e]. *)
Definition onCycle (d : TraceParseData) (e : TraceEventData) : Prop :=
  ∃ k, 0 < k ∧ walkSteps d k e = Some e.

(** A step along a parent pointer: the event has no initiator. *)
Definition parentStep (d : TraceParseData) (e e' : TraceEventData) : Prop :=
  eventToInitiator (Initiators d) !! e = None ∧ parentEntry d e = Some e'.

(** ** Facts about the walk *)

Lemma walkSteps_snoc d k e :
  walkSteps d (S k) e = e' ← walkSteps d k e; walkStep d e'.
Proof.
  revert e. induction k as [|k IH]; intros e.
  - simpl. by destruct (walkStep d e).
  - change (walkSteps d (S (S k)) e)
      with (e' ← walkStep d e; walkSteps d (S k) e').
    destruct (walkStep d e) as [e1|] eqn:He; simpl; rewrite He; simpl; [|done].
    apply IH.
Qed.

Lemma walkStep_Some_dom d e e' :
  walkStep d e = Some e' →
  e ∈ dom (eventToInitiator (Initiators d)) ∪ dom (entryToNode (Renderer d)).
Proof.
  unfold walkStep, parentEntry. intros H.
  destruct (eventToInitiator (Initiators d) !! e) as [i|] eqn:Hi.
  - apply elem_of_union_l, elem_of_dom. eauto.
  - destruct (isSyntheticTraceEntry e); [|done].
    destruct (entryToNode (Renderer d) !! e) as [node|] eqn:Hn; [|done].
    apply elem_of_union_r, elem_of_dom. eauto.
Qed.

(** The walk from an event that was not visited yet: every visited event
    reaches the current one, so meeting a visited event again is a cycle. *)
Lemma depth_of_unvisited d :
  acyclic d →
  ∀ n (visited : gset positive) e,
    size ((dom (eventToInitiator (Initiators d))
           ∪ dom (entryToNode (Renderer d))) ∖ visited) ≤ n →
    (∀ v, v ∈ visited → ∃ k, 0 < k ∧ walkSteps d k v = Some e) →
    ∃ m, m ≤ S n ∧ depth d e m.
Proof.
  intros Hacyc. induction n as [|n IH]; intros visited e Hsize Hreach.
  all: destruct (walkStep d e) as [e'|] eqn:Hstep;
    [|exists 1; split; [lia|by constructor]].
  all: pose proof (walkStep_Some_dom _ _ _ Hstep) as Hdom.
  all: assert (e ∉ visited) as Hfresh
    by (intros [k [Hk Hw]]%Hreach; by apply (Hacyc e k)).
  - exfalso.
    assert (size ((dom (eventToInitiator (Initiators d))
                   ∪ dom (entryToNode (Renderer d))) ∖ visited) ≠ 0); [|lia].
    apply size_non_empty_iff. intros Hempty. set_solver.
  - destruct (IH ({[e]} ∪ visited) e') as (m & Hm & Hdepth).
    + assert (size ((dom (eventToInitiator (Initiators d))
                     ∪ dom (entryToNode (Renderer d))) ∖ ({[e]} ∪ visited))
              < size ((dom (eventToInitiator (Initiators d))
                       ∪ dom (entryToNode (Renderer d))) ∖ visited)); [|lia].
      apply subset_size. set_solver.
    + intros v [->%elem_of_singleton|Hv]%elem_of_union.
      * exists 1. split; [lia|]. simpl. by rewrite Hstep.
      * destruct (Hreach v Hv) as (k & Hk & Hw).
        exists (S k). split; [lia|]. rewrite walkSteps_snoc, Hw. done.
    + exists (S m). split; [lia|]. by econstructor.
Qed.

Lemma depth_of_acyclic d e :
  acyclic d →
  ∃ m, m ≤ S (size (dom (eventToInitiator (Initiators d))
                    ∪ dom (entryToNode (Renderer d))))
       ∧ depth d e m.
Proof.
  intros Hacyc.
  apply (depth_of_unvisited d Hacyc _ ∅ e); [|set_solver].
  apply subseteq_size. set_solver.
Qed.

Lemma depth_pos d e n : depth d e n → 0 < n.
Proof. destruct 1; lia. Qed.

Lemma depth_chain d e n : depth d e n → ∃ ps, initiatorChain d e ps.
Proof.
  induction 1 as [e Hlast|e e' n Hstep _ [ps IH]].
  - exists []. by constructor.
  - unfold walkStep in Hstep.
    destruct (eventToInitiator (Initiators d) !! e) as [i|] eqn:Hi.
    + injection Hstep as ->. eexists. by apply chain_initiator.
    + exists ps. by eapply chain_parent.
Qed.

Lemma chain_depth d e ps : initiatorChain d e ps → ∃ n, depth d e n.
Proof.
  induction 1 as [e Hlast|e i ps Hi _ [n IH]|e p ps Hi Hp _ [n IH]].
  - exists 1. by constructor.
  - exists (S n). apply depth_step with i; [|done]. unfold walkStep. by rewrite Hi.
  - exists (S n). apply depth_step with p; [|done]. unfold walkStep. by rewrite Hi.
Qed.

Lemma chain_unique d e ps1 ps2 :
  initiatorChain d e ps1 → initiatorChain d e ps2 → ps1 = ps2.
Proof.
  intros H1. revert ps2.
  induction H1 as [e Hlast|e i ps Hi _ IH|e p ps Hi Hp _ IH]; intros ps2 H2.
  - inversion H2 as [|? ? ? Hi' _|? ? ? Hi' Hp' _]; subst; [done|..];
      unfold walkStep in Hlast; rewrite Hi' in Hlast; congruence.
  - inversion H2 as [? Hlast|? ? ? Hi' Hc|? ? ? Hi' Hp' _]; subst.
    + unfold walkStep in Hlast. rewrite Hi in Hlast. congruence.
    + rewrite Hi in Hi'. injection Hi' as <-. f_equal. by apply IH.
    + congruence.
  - inversion H2 as [? Hlast|? ? ? Hi' Hc|? ? ? Hi' Hp' Hc]; subst.
    + unfold walkStep in Hlast. rewrite Hi in Hlast. congruence.
    + congruence.
    + rewrite Hp in Hp'. injection Hp' as <-. by apply IH.
Qed.

Lemma chain_pairs d e ps :
  initiatorChain d e ps →
  ∀ p, p ∈ ps →
    eventToInitiator (Initiators d) !! event p = Some (initiator p).
Proof.
  induction 1 as [e Hlast|e i ps Hi _ IH|e p ps Hi Hp _ IH]; intros q Hq.
  - by apply elem_of_nil in Hq.
  - apply elem_of_cons in Hq as [->|Hq]; [done|by apply IH].
  - by apply IH.
Qed.

(** ** The loop against the walk *)

Lemma predecessorsLoop_None fuel d pairs its :
  predecessorsLoop fuel d None pairs its = Some (pairs, its).
Proof. by destruct fuel. Qed.

(** The loop ends where [walkStep] has no successor, and otherwise goes on
    from the successor. *)
Lemma predecessorsLoop_last fuel d e pairs its :
  walkStep d e = None →
  predecessorsLoop (S fuel) d (Some e) pairs its = Some (pairs, S its).
Proof.
  unfold walkStep, parentEntry. simpl.
  destruct (eventToInitiator (Initiators d) !! e); [done|].
  destruct (isSyntheticTraceEntry e); simpl; [|done].
  destruct (entryToNode (Renderer d) !! e) as [node|]; simpl; [|done].
  destruct (parent node); simpl; [done|].
  intros _. apply predecessorsLoop_None.
Qed.

Lemma predecessorsLoop_initiator fuel d e i pairs its :
  eventToInitiator (Initiators d) !! e = Some i →
  predecessorsLoop (S fuel) d (Some e) pairs its
  = predecessorsLoop fuel d (Some i)
      (pairs ++ [{| event := e; initiator := i |}]) (S its).
Proof. simpl. by intros ->. Qed.

Lemma predecessorsLoop_parent fuel d e p pairs its :
  eventToInitiator (Initiators d) !! e = None →
  parentEntry d e = Some p →
  predecessorsLoop (S fuel) d (Some e) pairs its
  = predecessorsLoop fuel d (Some p) pairs (S its).
Proof.
  unfold parentEntry. simpl. intros ->.
  destruct (isSyntheticTraceEntry e); simpl; [|done].
  destruct (entryToNode (Renderer d) !! e) as [node|]; simpl; [|done].
  by intros ->.
Qed.

Lemma predecessorsLoop_complete d e n ps :
  depth d e n → initiatorChain d e ps →
  ∀ fuel pairs its, n ≤ fuel →
    predecessorsLoop fuel d (Some e) pairs its = Some (pairs ++ ps, its + n).
Proof.
  intros Hd. revert ps.
  induction Hd as [e Hlast|e e' n Hstep Hd IH]; intros ps Hc fuel pairs its Hfuel.
  all: destruct fuel as [|fuel]; [lia|].
  - inversion Hc as [|? ? ? Hi' _|? ? ? Hi' Hp' _]; subst.
    + rewrite predecessorsLoop_last by done.
      rewrite app_nil_r. do 2 f_equal. lia.
    + unfold walkStep in Hlast. rewrite Hi' in Hlast. congruence.
    + unfold walkStep in Hlast. rewrite Hi' in Hlast. congruence.
  - unfold walkStep in Hstep.
    inversion Hc as [? Hlast|? ? ? Hi' Hc'|? ? ? Hi' Hp' Hc']; subst.
    + unfold walkStep in Hlast. destruct (eventToInitiator _ !! e); congruence.
    + rewrite Hi' in Hstep. injection Hstep as <-.
      rewrite (predecessorsLoop_initiator _ _ _ _ _ _ Hi').
      rewrite (IH _ Hc') by lia. rewrite <- app_assoc. simpl.
      do 2 f_equal. lia.
    + rewrite Hi', Hp' in Hstep. injection Hstep as <-.
      rewrite (predecessorsLoop_parent _ _ _ _ _ _ Hi' Hp').
      rewrite (IH _ Hc') by lia. do 2 f_equal. lia.
Qed.

Lemma predecessorsLoop_sound fuel d :
  ∀ e pairs its r k,
    predecessorsLoop fuel d (Some e) pairs its = Some (r, k) →
    ∃ ps n, initiatorChain d e ps ∧ depth d e n
            ∧ r = pairs ++ ps ∧ k = its + n.
Proof.
  induction fuel as [|fuel IH]; intros e pairs its r k Hrun; [done|].
  destruct (walkStep d e) as [e'|] eqn:Hstep.
  - unfold walkStep in Hstep.
    destruct (eventToInitiator (Initiators d) !! e) as [i|] eqn:Hi.
    + injection Hstep as ->.
      rewrite (predecessorsLoop_initiator _ _ _ _ _ _ Hi) in Hrun.
      apply IH in Hrun as (ps & n & Hc & Hd & -> & ->).
      exists ({| event := e; initiator := e' |} :: ps), (S n).
      split; [by constructor|]. split.
      { apply depth_step with e'; [|done]. unfold walkStep. by rewrite Hi. }
      rewrite <- app_assoc. split; [done|lia].
    + rewrite (predecessorsLoop_parent _ _ _ _ _ _ Hi Hstep) in Hrun.
      apply IH in Hrun as (ps & n & Hc & Hd & -> & ->).
      exists ps, (S n). split; [by eapply chain_parent|]. split.
      { apply depth_step with e'; [|done]. unfold walkStep. by rewrite Hi. }
      split; [done|lia].
  - rewrite predecessorsLoop_last in Hrun by done. injection Hrun as <- <-.
    exists [], 1. split; [by constructor|]. split; [by constructor|].
    rewrite app_nil_r. split; [done|lia].
Qed.

Lemma acyclic_of_increasing d :
  (∀ e e', walkStep d e = Some e' → (e < e')%positive) → acyclic d.
Proof.
  intros Hinc.
  assert (∀ k e e', 0 < k → walkSteps d k e = Some e' → (e < e')%positive)
    as Hsteps.
  { induction k as [|k IH]; intros e e' Hk Hw; [lia|].
    simpl in Hw. destruct (walkStep d e) as [e1|] eqn:He; [|done].
    simpl in Hw. apply Hinc in He.
    destruct k as [|k]; [injection Hw as <-; done|].
    apply (Pos.lt_trans _ e1); [exact He|]. apply IH; [lia|done]. }
  intros e k Hk Hw. apply Hsteps in Hw; [lia|done].
Qed.

Lemma elem_of_directSuccessors d selectedEvent p :
  p ∈ findEventInitiatorPairsDirectSuccessors d selectedEvent
  ↔ initiator p = selectedEvent
    ∧ ∃ events, initiatorToEvents (Initiators d) !! selectedEvent = Some events
                ∧ event p ∈ events.
Proof.
  unfold findEventInitiatorPairsDirectSuccessors.
  destruct (initiatorToEvents (Initiators d) !! selectedEvent) as [events|].
  - rewrite list_elem_of_fmap. split.
    + intros (ev & -> & Hev). simpl. eauto.
    + intros (<- & events' & [= <-] & Hev). exists (event p).
      split; [by destruct p|done].
  - split; [by intros ?%elem_of_nil|]. by intros (_ & ? & ? & _).
Qed.

(** ** The claims *)

(** C1, as amended.  [eventInitiatorPairsToDraw] returns a list exactly when
    the walk from the selected event ends, and the list is then the chain of
    the walk (every pair of it has [initiator = eventToInitiator(event)],
    the walk following initiators and, for synthetic entries without one,
    parent pointers) followed by the pairs of the direct successors (their
    initiator is the selected event and their event a member of
    [initiatorToEvents(selectedEvent)]). *)
Theorem eventInitiatorPairsToDraw_chain_then_successors d selectedEvent :
  (∀ result,
     (∃ fuel, eventInitiatorPairsToDraw fuel d selectedEvent = Some result)
     ↔ ∃ chain, initiatorChain d selectedEvent chain
         ∧ result = chain
             ++ findEventInitiatorPairsDirectSuccessors d selectedEvent)
  ∧ (∀ chain p, initiatorChain d selectedEvent chain → p ∈ chain →
       eventToInitiator (Initiators d) !! event p = Some (initiator p))
  ∧ (∀ p, p ∈ findEventInitiatorPairsDirectSuccessors d selectedEvent
       ↔ initiator p = selectedEvent
         ∧ ∃ events,
             initiatorToEvents (Initiators d) !! selectedEvent = Some events
             ∧ event p ∈ events).
Proof.
  split; [|split].
  - intros result. unfold eventInitiatorPairsToDraw,
      findEventInitiatorPairsPredecessors. split.
    + intros [fuel Hrun].
      destruct (predecessorsLoop fuel d (Some selectedEvent) [] 0)
        as [[r k]|] eqn:Hloop; [|done].
      simpl in Hrun. injection Hrun as <-.
      apply predecessorsLoop_sound in Hloop as (ps & n & Hc & _ & -> & _).
      by exists ps.
    + intros (chain & Hc & ->).
      destruct (chain_depth _ _ _ Hc) as [n Hd]. exists n.
      by rewrite (predecessorsLoop_complete _ _ _ _ Hd Hc).
  - intros chain p Hc. by apply (chain_pairs d selectedEvent).
  - apply elem_of_directSuccessors.
Qed.

(** C4.  When the combined relation (an event goes to its initiator or, when
    it has none and is a synthetic entry, to its parent entry) is acyclic,
    the loop of [findEventInitiatorPairsPredecessors] ends: the walk from the
    selected event has a depth [n] (the number of events on it), which is at
    most one more than the number of keys of the two maps, and with any fuel
    of at least [n] the loop returns after exactly [n] iterations. *)
Theorem predecessors_loop_terminates d selectedEvent :
  acyclic d →
  ∃ n pairs,
    depth d selectedEvent n
    ∧ n ≤ S (size (dom (eventToInitiator (Initiators d))
                   ∪ dom (entryToNode (Renderer d))))
    ∧ ∀ fuel, n ≤ fuel →
        predecessorsLoop fuel d (Some selectedEvent) [] 0 = Some (pairs, n)
        ∧ findEventInitiatorPairsPredecessors fuel d selectedEvent
          = Some pairs.
Proof.
  intros Hacyc.
  destruct (depth_of_acyclic d selectedEvent Hacyc) as (n & Hn & Hd).
  destruct (depth_chain _ _ _ Hd) as [ps Hc].
  exists n, ps. split; [done|]. split; [done|]. intros fuel Hfuel.
  unfold findEventInitiatorPairsPredecessors.
  by rewrite (predecessorsLoop_complete _ _ _ _ Hd Hc).
Qed.

(** ** Where the walk ends, and what it collects *)

Lemma walkSteps_add d j k e :
  walkSteps d (j + k) e = e' ← walkSteps d j e; walkSteps d k e'.
Proof.
  revert e. induction j as [|j IH]; intros e; [done|].
  simpl. destruct (walkStep d e) as [e1|]; simpl; [apply IH|done].
Qed.

Lemma depth_walk_ends d e n : depth d e n → walkSteps d n e = None.
Proof.
  induction 1 as [e Hlast|e e' n Hstep _ IH]; simpl.
  - by rewrite Hlast.
  - by rewrite Hstep.
Qed.

Lemma walkSteps_None_ge d k k' e :
  walkSteps d k e = None → k ≤ k' → walkSteps d k' e = None.
Proof.
  intros Hk Hle. replace k' with (k + (k' - k)) by lia.
  by rewrite walkSteps_add, Hk.
Qed.

Lemma onCycle_repeat d e k m :
  walkSteps d k e = Some e → walkSteps d (m * k) e = Some e.
Proof.
  intros Hk. induction m as [|m IH]; [done|].
  simpl. by rewrite walkSteps_add, Hk.
Qed.

Lemma depth_not_onCycle d e n : depth d e n → ¬ onCycle d e.
Proof.
  intros Hd (k & Hk & Hcycle).
  pose proof (onCycle_repeat d e k n Hcycle) as Hrepeat.
  rewrite (walkSteps_None_ge d n (n * k) e) in Hrepeat; [done| |nia].
  by apply depth_walk_ends.
Qed.

Lemma depth_reaches d e e' n : depth d e n → reaches d e e' → ∃ m, depth d e' m.
Proof.
  intros Hd [k Hk]. revert e n Hd Hk.
  induction k as [|k IH]; intros e n Hd Hk.
  - injection Hk as <-. eauto.
  - simpl in Hk. destruct (walkStep d e) as [e1|] eqn:Hstep; [|done].
    simpl in Hk. inversion Hd as [? Hlast|? e2 n' Hstep' Hd']; subst.
    + congruence.
    + rewrite Hstep in Hstep'. injection Hstep' as <-. by eapply IH.
Qed.

(** The walk from an event that no cycle can be reached from. *)
Lemma depth_of_unvisited_from d selectedEvent :
  (∀ e, reaches d selectedEvent e → ¬ onCycle d e) →
  ∀ n (visited : gset TraceEventData) e,
    reaches d selectedEvent e →
    size ((dom (eventToInitiator (Initiators d))
           ∪ dom (entryToNode (Renderer d))) ∖ visited) ≤ n →
    (∀ v, v ∈ visited → ∃ k, 0 < k ∧ walkSteps d k v = Some e) →
    ∃ m, depth d e m.
Proof.
  intros Hfree. induction n as [|n IH]; intros visited e Hsel Hsize Hreach.
  all: destruct (walkStep d e) as [e'|] eqn:Hstep;
    [|exists 1; by constructor].
  all: pose proof (walkStep_Some_dom _ _ _ Hstep) as Hdom.
  all: assert (e ∉ visited) as Hfresh
    by (intros [k [Hk Hw]]%Hreach; apply (Hfree e Hsel); by exists k).
  - exfalso.
    assert (size ((dom (eventToInitiator (Initiators d))
                   ∪ dom (entryToNode (Renderer d))) ∖ visited) ≠ 0); [|lia].
    apply size_non_empty_iff. intros Hempty. set_solver.
  - destruct (IH ({[e]} ∪ visited) e') as (m & Hdepth).
    + destruct Hsel as [k Hk]. exists (S k).
      by rewrite walkSteps_snoc, Hk.
    + assert (size ((dom (eventToInitiator (Initiators d))
                     ∪ dom (entryToNode (Renderer d))) ∖ ({[e]} ∪ visited))
              < size ((dom (eventToInitiator (Initiators d))
                       ∪ dom (entryToNode (Renderer d))) ∖ visited)); [|lia].
      apply subset_size. set_solver.
    + intros v [->%elem_of_singleton|Hv]%elem_of_union.
      * exists 1. split; [lia|]. simpl. by rewrite Hstep.
      * destruct (Hreach v Hv) as (k & Hk & Hw).
        exists (S k). split; [lia|]. rewrite walkSteps_snoc, Hw. done.
    + exists (S m). by econstructor.
Qed.

(** X1.  [eventInitiatorPairsToDraw] returns exactly when no event that the
    walk from the selected event comes to lies on a cycle of the combined
    relation; cycles elsewhere in the trace do not matter. *)
Theorem eventInitiatorPairsToDraw_returns_iff_no_cycle d selectedEvent :
  (∃ fuel result,
     eventInitiatorPairsToDraw fuel d selectedEvent
     = Some result)
  ↔ ∀ e, reaches d selectedEvent e → ¬ onCycle d e.
Proof.
  unfold eventInitiatorPairsToDraw, findEventInitiatorPairsPredecessors. split.
  - intros (fuel & result & Hrun) e Hreach.
    destruct (predecessorsLoop fuel d (Some selectedEvent) [] 0)
      as [[r k]|] eqn:Hloop; [|done].
    apply predecessorsLoop_sound in Hloop as (ps & n & _ & Hd & _).
    destruct (depth_reaches d selectedEvent e n Hd Hreach) as [m Hm].
    by apply (depth_not_onCycle d e m).
  - intros Hfree.
    destruct (depth_of_unvisited_from d selectedEvent Hfree
                (size ((dom (eventToInitiator (Initiators d))
                        ∪ dom (entryToNode (Renderer d))) ∖ ∅))
                ∅ selectedEvent)
      as [n Hd]; [by exists 0|done|set_solver|].
    destruct (depth_chain _ _ _ Hd) as [ps Hc].
    exists n. eexists.
    by rewrite (predecessorsLoop_complete _ _ _ _ Hd Hc).
Qed.

(** ** The pairs of the chain *)

Lemma chain_events_reached d e ps p :
  initiatorChain d e ps → p ∈ ps → reaches d e (event p).
Proof.
  induction 1 as [e Hlast|e i ps Hi _ IH|e q ps Hi Hq _ IH]; intros Hp.
  - by apply elem_of_nil in Hp.
  - apply elem_of_cons in Hp as [->|Hp]; [by exists 0|].
    destruct (IH Hp) as [k Hk]. exists (S k). simpl.
    unfold walkStep. by rewrite Hi.
  - destruct (IH Hp) as [k Hk]. exists (S k). simpl.
    unfold walkStep. by rewrite Hi, Hq.
Qed.

Lemma chain_events_NoDup d e ps :
  initiatorChain d e ps → NoDup (event <$> ps).
Proof.
  induction 1 as [e Hlast|e i ps Hi Hc IH|e q ps Hi Hq _ IH].
  - constructor.
  - rewrite fmap_cons. apply NoDup_cons. split; [|done]. simpl.
    intros (p & Hev & Hp)%list_elem_of_fmap.
    destruct (chain_events_reached d i ps p Hc Hp) as [k Hk].
    destruct (chain_depth d e ({| event := e; initiator := i |} :: ps))
      as [n Hd]; [by constructor|].
    apply (depth_not_onCycle d e n Hd). exists (S k). split; [lia|].
    simpl. unfold walkStep. rewrite Hi. simpl.
    by rewrite Hk, Hev.
  - done.
Qed.

(** X2.  The pairs that [findEventInitiatorPairsPredecessors] returns have
    pairwise different events, each a key of [eventToInitiator]: no pair is
    drawn twice, and there are at most as many pairs as the map has
    entries. *)
Theorem predecessors_distinct fuel d selectedEvent pairs :
  findEventInitiatorPairsPredecessors fuel d
    selectedEvent = Some pairs →
  NoDup (event <$> pairs)
  ∧ NoDup pairs
  ∧ length pairs ≤ size (eventToInitiator (Initiators d)).
Proof.
  unfold findEventInitiatorPairsPredecessors. intros Hrun.
  destruct (predecessorsLoop fuel d (Some selectedEvent) [] 0)
    as [[r k]|] eqn:Hloop; [|done].
  simpl in Hrun. injection Hrun as <-.
  apply predecessorsLoop_sound in Hloop as (ps & n & Hc & _ & -> & _).
  simpl. pose proof (chain_events_NoDup d selectedEvent ps Hc) as Hnodup.
  split; [done|]. split; [by apply NoDup_fmap_1 in Hnodup|].
  rewrite <- (length_fmap event), <- size_dom.
  rewrite <- (size_list_to_set (C := gset TraceEventData) (event <$> ps)) by done.
  apply subseteq_size. intros x Hx. apply elem_of_list_to_set in Hx.
  apply list_elem_of_fmap in Hx as (p & -> & Hp).
  apply elem_of_dom. exists (initiator p).
  by apply (chain_pairs d selectedEvent ps).
Qed.

(** The chain is one path: between two pairs only parent pointers are
    followed. *)
Lemma chain_linked d e ps :
  initiatorChain d e ps →
  match ps with
  | [] => True
  | p :: _ => rtc (parentStep d) e (event p)
  end
  ∧ ∀ i p q, ps !! i = Some p → ps !! S i = Some q →
      rtc (parentStep d) (initiator p) (event q).
Proof.
  induction 1 as [e Hlast|e i ps Hi Hc [IHhead IHrest]
                  |e q ps Hi Hq Hc [IHhead IHrest]].
  - split; [done|]. intros i p q Hp. done.
  - split; [done|]. intros [|k] p q Hp Hq; simpl in *.
    + injection Hp as <-. simpl. destruct ps as [|p' ps']; [done|].
      by injection Hq as <-.
    + by apply (IHrest k).
  - split; [|done]. destruct ps as [|p ps']; [done|].
    by apply rtc_l with q.
Qed.

(** X3.  The pairs of [findEventInitiatorPairsPredecessors] form one path
    from the selected event: the event of the first pair is the selected
    event or an ancestor of it along parent pointers of entries without an
    initiator, and so is the event of every next pair for the initiator of
    the pair before it. *)
Theorem predecessors_linked fuel d selectedEvent pairs :
  findEventInitiatorPairsPredecessors fuel d
    selectedEvent = Some pairs →
  match pairs with
  | [] => True
  | p :: _ => rtc (parentStep d) selectedEvent (event p)
  end
  ∧ ∀ i p q, pairs !! i = Some p → pairs !! S i = Some q →
      rtc (parentStep d) (initiator p) (event q).
Proof.
  unfold findEventInitiatorPairsPredecessors. intros Hrun.
  destruct (predecessorsLoop fuel d (Some selectedEvent) [] 0)
    as [[r k]|] eqn:Hloop; [|done].
  simpl in Hrun. injection Hrun as <-.
  apply predecessorsLoop_sound in Hloop as (ps & n & Hc & _ & -> & _).
  by apply chain_linked.
Qed.

End WithTypeGuard.

(** ** On the sample traces *)

Lemma sampleTrace_acyclic : acyclic sampleSynthetic sampleTrace.
Proof.
  apply acyclic_of_increasing. intros e e'.
  unfold walkStep, parentEntry, sampleSynthetic. simpl.
  destruct (decide (e = 2%positive)) as [->|He2].
  { vm_compute. intros [= <-]. done. }
  rewrite lookup_singleton_ne by done.
  case_bool_decide as He1; [subst e|done].
  vm_compute. intros [= <-]. done.
Qed.

Example sampleTrace_pairs :
  eventInitiatorPairsToDraw sampleSynthetic 3 sampleTrace 1%positive
  = Some [ {| event := 2%positive; initiator := 3%positive |};
           {| event := 4%positive; initiator := 1%positive |};
           {| event := 5%positive; initiator := 1%positive |} ].
Proof. vm_compute. reflexivity. Qed.

Lemma selfInitiated_loop fuel pairs its :
  predecessorsLoop sampleSynthetic fuel selfInitiatedTrace (Some 1%positive)
    pairs its = None.
Proof.
  revert pairs its. induction fuel as [|fuel IH]; intros pairs its; [done|].
  rewrite (predecessorsLoop_initiator _ _ _ _ 1%positive); [apply IH|done].
Qed.

(** C1, as first stated, fails on a trace with a cycle: the selected event is
    its own initiator, and no number of iterations makes the function
    return. *)
Lemma eventInitiatorPairsToDraw_cycle_never_returns :
  eventToInitiator (Initiators selfInitiatedTrace) !! 1%positive
    = Some 1%positive
  ∧ ∀ fuel,
      eventInitiatorPairsToDraw sampleSynthetic fuel selfInitiatedTrace
        1%positive = None.
Proof.
  split; [done|]. intros fuel.
  unfold eventInitiatorPairsToDraw, findEventInitiatorPairsPredecessors.
  by rewrite selfInitiated_loop.
Qed.

Lemma eventInitiatorPairsToDraw_sample :
  (∃ fuel, eventInitiatorPairsToDraw sampleSynthetic fuel sampleTrace
             1%positive
           = Some [ {| event := 2%positive; initiator := 3%positive |};
                    {| event := 4%positive; initiator := 1%positive |};
                    {| event := 5%positive; initiator := 1%positive |} ])
  ↔ ∃ chain, initiatorChain sampleSynthetic sampleTrace 1%positive chain
      ∧ [ {| event := 2%positive; initiator := 3%positive |};
          {| event := 4%positive; initiator := 1%positive |};
          {| event := 5%positive; initiator := 1%positive |} ]
        = chain ++ findEventInitiatorPairsDirectSuccessors sampleTrace
                     1%positive.
Proof.
  exact (proj1 (eventInitiatorPairsToDraw_chain_then_successors
                  sampleSynthetic sampleTrace 1%positive) _).
Defined.

Lemma predecessors_loop_terminates_sample :
  acyclic sampleSynthetic sampleTrace
  ∧ ∃ n pairs,
      depth sampleSynthetic sampleTrace 1%positive n
      ∧ n ≤ S (size (dom (eventToInitiator (Initiators sampleTrace))
                     ∪ dom (entryToNode (Renderer sampleTrace))))
      ∧ ∀ fuel, n ≤ fuel →
          predecessorsLoop sampleSynthetic fuel sampleTrace (Some 1%positive)
            [] 0 = Some (pairs, n)
          ∧ findEventInitiatorPairsPredecessors sampleSynthetic fuel
              sampleTrace 1%positive = Some pairs.
Proof.
  split; [exact sampleTrace_acyclic|].
  exact (predecessors_loop_terminates sampleSynthetic sampleTrace 1%positive
           sampleTrace_acyclic).
Defined.

(** X2 on the sample trace. *)
Lemma predecessors_distinct_sample :
  NoDup (event <$> [ {| event := 2%positive; initiator := 3%positive |} ])
  ∧ NoDup [ {| event := 2%positive; initiator := 3%positive |} ]
  ∧ length [ {| event := 2%positive; initiator := 3%positive |} ]
    ≤ size (eventToInitiator (Initiators sampleTrace)).
Proof.
  apply (predecessors_distinct sampleSynthetic 3 sampleTrace 1%positive).
  vm_compute. reflexivity.
Defined.

(** X3 on the sample trace: from the synthetic entry [1] a parent pointer
    leads to [2], the event of the only pair. *)
Lemma predecessors_linked_sample :
  rtc (parentStep sampleSynthetic sampleTrace) 1%positive 2%positive
  ∧ ∀ i p q,
      [ {| event := 2%positive; initiator := 3%positive |} ] !! i = Some p →
      [ {| event := 2%positive; initiator := 3%positive |} ] !! S i = Some q →
      rtc (parentStep sampleSynthetic sampleTrace) (initiator p) (event q).
Proof.
  apply (predecessors_linked sampleSynthetic 3 sampleTrace 1%positive
           [ {| event := 2%positive; initiator := 3%positive |} ]).
  vm_compute. reflexivity.
Defined.

End TimelineInitiators.

(* ===================================================================== *)
(** * Array utilities and their unit test *)
(* ===================================================================== *)

Module ArrayUtilities.

(** [Array.prototype.slice(start, end)] for indices that are not negative. *)
Definition slice {A : Type} (array : list A) (start finish : nat) : list A :=
  take (finish - start) (drop start array).

Section WithElement.

Context {A : Type} `{EqDecision A}.

(** [Array.prototype.indexOf]; [None] stands for [-1]. *)
Fixpoint indexOf (array : list A) (element : A) : option nat :=
  match array with
  | [] => None
  | x :: rest =>
      if decide (x = element) then Some 0 else S <$> indexOf rest element
  end.

(** Modelled from the spec: the loop of [removeElement] (below) that closes
    the gaps, [for (i = index + 1; i < n; ++i) if (array[i] !== element)
    array[index++] = array[i]], run for [steps] more iterations. *)
Fixpoint compactLoop (steps : nat) (array : list A) (element : A)
    (index i : nat) : list A * nat :=
  match steps with
  | O => (array, index)
  | S steps' =>
      match array !! i with
      | Some x =>
          if decide (x = element)
          then compactLoop steps' array element index (S i)
          else compactLoop steps' (<[index := x]> array) element (S index) (S i)
      | None => (array, index)
      end
  end.

(** Modelled from the spec: [Platform.ArrayUtilities.removeElement] is called
    by the unit test, its file is not among the sources.  The model works on
    the array in place as the test expects: it finds the first occurrence
    with [indexOf]; with [firstOnly] it splices that one element out,
    otherwise it moves the elements that differ from [element] down over the
    removed ones and cuts the array at the new length.  It returns the array
    and whether something was removed. *)
Definition removeElement (array : list A) (element : A) (firstOnly : bool)
    : list A * bool :=
  match indexOf array element with
  | None => (array, false)
  | Some index =>
      if firstOnly then (delete index array, true)
      else
        let '(array', index') :=
          compactLoop (length array - S index) array element index (S index) in
        (take index' array', true)
  end.

(** ** Sorting a window of a range *)

Variable comparator : A → A → Z.

(** The order a comparator stands for: [a] goes before or with [b]. *)
Definition notAfter (a b : A) : Prop := (comparator a b ≤ 0)%Z.

#[local] Instance notAfter_dec a b : Decision (notAfter a b).
Proof. unfold notAfter. apply _. Defined.

(** [array.sort(comparator)]: a stable sort. *)
Definition sort (array : list A) : list A := merge_sort notAfter array.

(** Modelled from the spec: [swap(array, i1, i2)], a helper of [sortRange]
    (below).  Both indices are inside the array wherever the sort calls it,
    and the model leaves the array alone otherwise. *)
Definition swap (array : list A) (i1 i2 : nat) : list A :=
  match array !! i1, array !! i2 with
  | Some x1, Some x2 => <[i2 := x1]> (<[i1 := x2]> array)
  | _, _ => array
  end.

(** Modelled from the spec: the loop of [partition],
    [for (i = left; i < right; ++i)], with [steps] iterations left: an
    element that the comparator puts before the pivot is swapped down to
    [storeIndex]. *)
Fixpoint partitionLoop (steps : nat) (array : list A) (pivotValue : A)
    (storeIndex i : nat) : list A * nat :=
  match steps with
  | O => (array, storeIndex)
  | S steps' =>
      match array !! i with
      | Some x =>
          if decide (comparator x pivotValue < 0)%Z
          then partitionLoop steps' (swap array storeIndex i) pivotValue
                 (S storeIndex) (S i)
          else partitionLoop steps' array pivotValue storeIndex (S i)
      | None => (array, storeIndex)
      end
  end.

(** Modelled from the spec: [partition], a helper of [sortRange] (below).
    The pivot is moved to [right], the loop gathers the smaller elements at
    the left, and the pivot is moved to its place, whose index is
    returned. *)
Definition partition (array : list A) (left right pivotIndex : nat)
    : list A * nat :=
  match array !! pivotIndex with
  | Some pivotValue =>
      let array1 := swap array right pivotIndex in
      let '(array2, storeIndex) :=
        partitionLoop (right - left) array1 pivotValue left left in
      (swap array2 right storeIndex, storeIndex)
  | None => (array, left)
  end.

(** Modelled from the spec: [quickSortRange], the recursion of [sortRange]
    (below).  It is on the size of the range, bounded here by [fuel] ([None]
    when it runs out).  [random k] stands for the
    [k]-th draw of [Math.random], already scaled: the pivot is
    [left + random k mod (right - left)], any index of [left .. right - 1].
    The function returns the array and the number of draws made so far. *)
Fixpoint quickSortRange (fuel : nat) (random : nat → nat) (draws : nat)
    (array : list A) (left right sortWindowLeft sortWindowRight : nat)
    : option (list A * nat) :=
  if decide (right ≤ left) then Some (array, draws) else
  match fuel with
  | O => None
  | S fuel' =>
      let pivotIndex := random draws `mod` (right - left) + left in
      let '(array1, pivotNewIndex) := partition array left right pivotIndex in
      '(array2, draws2) ←
        (if decide (sortWindowLeft < pivotNewIndex)
         then quickSortRange fuel' random (S draws) array1 left
                (pivotNewIndex - 1) sortWindowLeft sortWindowRight
         else Some (array1, S draws));
      if decide (pivotNewIndex < sortWindowRight)
      then quickSortRange fuel' random draws2 array2 (pivotNewIndex + 1) right
             sortWindowLeft sortWindowRight
      else Some (array2, draws2)
  end.

(** Modelled from the spec: [Platform.ArrayUtilities.sortRange] is called by
    the unit test, its file is not among the sources.  The model sorts in
    place: the whole array with [array.sort] when the range is the whole
    array and the window starts at 0 and reaches the right bound, and
    otherwise a quick sort of [leftBound .. rightBound] that only goes into
    the parts that meet the window (with [swap], [partition] and
    [quickSortRange] above, and a random pivot). *)
Definition sortRange (random : nat → nat) (array : list A)
    (leftBound rightBound sortWindowLeft sortWindowRight : nat)
    : option (list A) :=
  if decide (leftBound = 0 ∧ S rightBound = length array
             ∧ sortWindowLeft = 0 ∧ rightBound ≤ sortWindowRight)
  then Some (sort array)
  else fst <$> quickSortRange (S (rightBound - leftBound)) random 0 array
                 leftBound rightBound sortWindowLeft sortWindowRight.

(** ** What the claims about [sortRange] speak of *)

(** What the claims ask of a comparator: its sign turns with its arguments,
    it is transitive, and only equal elements compare as 0. *)
Definition totalOrderComparator : Prop :=
  (∀ a b, (comparator a b < 0)%Z ↔ (0 < comparator b a)%Z)
  ∧ (∀ a b c, (comparator a b ≤ 0)%Z → (comparator b c ≤ 0)%Z →
       (comparator a c ≤ 0)%Z)
  ∧ (∀ a b, comparator a b = 0%Z → a = b).

(** [rangePerm lo hi a a']: [a'] is [a] with the elements at the indices
    [lo .. hi - 1] rearranged. *)
Definition rangePerm (lo hi : nat) (a a' : list A) : Prop :=
  length a' = length a
  ∧ (∀ k, k < lo ∨ hi ≤ k → a' !! k = a !! k)
  ∧ a' ≡ₚ a.

(** [placed a lo hi i]: within [lo .. hi - 1], nothing before index [i]
    goes after [a[i]] and nothing after it goes before. *)
Definition placed (a : list A) (lo hi i : nat) : Prop :=
  ∀ j x y, lo ≤ j < hi → a !! j = Some x → a !! i = Some y →
    (j < i → notAfter x y) ∧ (i < j → notAfter y x).

End WithElement.

(** ** The unit test *)

Definition comparator (a b : Z) : Z :=
  if decide (a < b)%Z then (-1)%Z else if decide (a > b)%Z then 1%Z else 0%Z.

Record RemoveElementCase : Type := {
  input : list Z;
  expectedFirstOnlyTrue : list Z;
  expectedFirstOnlyFalse : list Z
}.

Definition testCases : list RemoveElementCase := [
  {| input := []; expectedFirstOnlyTrue := []; expectedFirstOnlyFalse := [] |};
  {| input := [1]; expectedFirstOnlyTrue := [1];
     expectedFirstOnlyFalse := [1] |};
  {| input := [1; 2; 3; 4; 5; 4; 3; 2; 1];
     expectedFirstOnlyTrue := [1; 3; 4; 5; 4; 3; 2; 1];
     expectedFirstOnlyFalse := [1; 3; 4; 5; 4; 3; 1] |};
  {| input := [2; 2; 2; 2; 2]; expectedFirstOnlyTrue := [2; 2; 2; 2];
     expectedFirstOnlyFalse := [] |};
  {| input := [2; 2; 2; 1; 2; 2; 3; 2];
     expectedFirstOnlyTrue := [2; 2; 1; 2; 2; 3; 2];
     expectedFirstOnlyFalse := [1; 3] |}
]%Z.

(** [it('removes elements')]: both assertions on every test case. *)
Definition removesElements : bool :=
  forallb (λ testCase,
    bool_decide ((removeElement (input testCase) 2%Z true).1
                 = expectedFirstOnlyTrue testCase)
    && bool_decide ((removeElement (input testCase) 2%Z false).1
                    = expectedFirstOnlyFalse testCase))
    testCases.

Definition fixtures : list (list Z) := [
  [];
  [1];
  [2; 1];
  [6; 4; 2; 7; 10; 15; 1];
  [10; 44; 3; 6; 56; 66; 10; 55; 32; 56; 2; 5]
]%Z.

(** The four assertions made on one call of [sortRange]. *)
Definition sortsRangeAt (random : nat → nat) (fixture : list Z)
    (left right first count : nat) : bool :=
  match sortRange comparator random fixture left right first
          (first + count - 1) with
  | None => false
  | Some actual =>
      let middle := sort comparator (slice fixture left (right + 1)) in
      let actualRest :=
        sort comparator (slice actual (first + count) (right + 1)) in
      bool_decide (slice fixture 0 left = slice actual 0 left)
      && bool_decide (drop (right + 1) fixture = drop (right + 1) actual)
      && bool_decide (slice middle (first - left) (first - left + count)
                      = slice actual first (first + count))
      && bool_decide (drop (first - left + count) middle = actualRest)
  end.

(** [it('sorts ranges, fixture i')]: the four nested loops. *)
Definition sortsRanges (random : nat → nat) (fixture : list Z) : bool :=
  forallb (λ left,
    forallb (λ right,
      forallb (λ first,
        forallb (λ count, sortsRangeAt random fixture left right first count)
          (seq 1 (right - first + 1)))
        (seq left (right + 1 - left)))
      (seq left (length fixture - left)))
    (seq 0 (length fixture - 1)).

(** ** Correctness of the model *)

Section Correctness.

Context {A : Type} `{EqDecision A}.

Variable comparator : A → A → Z.

(** ** [removeElement] *)

Lemma indexOf_None (array : list A) element :
  element ∉ array → indexOf array element = None.
Proof.
  induction array as [|x rest IH]; [done|].
  intros [Hx Hrest]%not_elem_of_cons. simpl.
  destruct (decide (x = element)); [congruence|]. by rewrite IH.
Qed.

Lemma indexOf_None_absent (array : list A) element :
  indexOf array element = None → element ∉ array.
Proof.
  induction array as [|x rest IH]; simpl; [intros _; apply not_elem_of_nil|].
  destruct (decide (x = element)); [done|].
  destruct (indexOf rest element); [done|]. intros _.
  apply not_elem_of_cons. split; [congruence|by apply IH].
Qed.

Lemma indexOf_first (l1 l2 : list A) element :
  element ∉ l1 → indexOf (l1 ++ element :: l2) element = Some (length l1).
Proof.
  induction l1 as [|x rest IH]; simpl.
  - intros _. by destruct (decide (element = element)).
  - intros [Hx Hrest]%not_elem_of_cons.
    destruct (decide (x = element)); [congruence|]. by rewrite IH.
Qed.

Lemma indexOf_Some (array : list A) element index :
  indexOf array element = Some index →
  ∃ l1 l2, array = l1 ++ element :: l2 ∧ (element ∉ l1) ∧ index = length l1.
Proof.
  revert index. induction array as [|x rest IH]; intros index; [done|].
  simpl. destruct (decide (x = element)) as [->|Hne].
  - intros [= <-]. exists [], rest. split; [done|]. split; [|done].
    apply not_elem_of_nil.
  - destruct (indexOf rest element) as [k|]; [|done]. intros [= <-].
    destruct (IH k eq_refl) as (l1 & l2 & -> & Hl1 & ->).
    exists (x :: l1), l2. split; [done|]. split; [|done].
    apply not_elem_of_cons. split; [congruence|done].
Qed.

Lemma compactLoop_take (element : A) steps :
  ∀ (array : list A) index i,
    index ≤ i → i + steps = length array →
    take (compactLoop steps array element index i).2
         (compactLoop steps array element index i).1
    = take index array ++ filter (λ x, x ≠ element) (drop i array).
Proof.
  induction steps as [|steps IH]; intros array index i Hle Hlen; simpl.
  - rewrite drop_ge by lia. by rewrite app_nil_r.
  - destruct (lookup_lt_is_Some_2 array i) as [x Hx]; [lia|].
    rewrite Hx. rewrite (drop_S _ _ _ Hx).
    destruct (decide (x = element)) as [->|Hne].
    + rewrite IH by lia. rewrite filter_cons_False; [done|]. by intros [].
    + rewrite IH by (rewrite ?length_insert; lia).
      rewrite filter_cons_True by done.
      rewrite drop_insert_lt by lia.
      rewrite (take_S_r _ _ x) by (apply list_lookup_insert_eq; lia).
      rewrite take_insert_ge by lia. by rewrite <- app_assoc.
Qed.

Lemma filter_absent (l : list A) element :
  element ∉ l → filter (λ x, x ≠ element) l = l.
Proof.
  induction l as [|x rest IH]; [done|].
  intros [Hx Hrest]%not_elem_of_cons.
  rewrite filter_cons_True by congruence. by rewrite IH.
Qed.

(** C3.  With [firstOnly], [removeElement] leaves an array without the value
    as it is and otherwise removes the first occurrence and nothing else;
    without [firstOnly] it removes every occurrence.  The elements that stay
    keep their order: the result is the array around the first occurrence,
    respectively the array filtered. *)
Theorem removeElement_removes (array : list A) (element : A) :
  (element ∉ array → removeElement array element true = (array, false))
  ∧ (∀ l1 l2, array = l1 ++ element :: l2 → element ∉ l1 →
       removeElement array element true = (l1 ++ l2, true))
  ∧ (removeElement array element false).1
    = filter (λ x, x ≠ element) array.
Proof.
  split; [|split].
  - intros Habsent. unfold removeElement. by rewrite indexOf_None.
  - intros l1 l2 -> Hl1. unfold removeElement.
    rewrite indexOf_first by done. by rewrite delete_middle.
  - unfold removeElement.
    destruct (indexOf array element) as [index|] eqn:Hindex.
    + apply indexOf_Some in Hindex as (l1 & l2 & -> & Hl1 & ->).
      pose proof (compactLoop_take element
        (length (l1 ++ element :: l2) - S (length l1))
        (l1 ++ element :: l2) (length l1) (S (length l1))) as Hloop.
      destruct (compactLoop _ _ _ _ _) as [array' index']. simpl in *.
      rewrite Hloop by (rewrite ?length_app; simpl; lia).
      rewrite take_app_length. rewrite filter_app, (filter_absent l1) by done.
      rewrite filter_cons_False by (intros Hne; by apply Hne).
      rewrite cons_middle, app_assoc, drop_app_length'; [done|].
      rewrite length_app. simpl. lia.
    + simpl. symmetry. apply filter_absent. by apply indexOf_None_absent.
Qed.

(** ** [swap], [partition] and [quickSortRange] *)

Lemma length_swap (a : list A) i j : length (swap a i j) = length a.
Proof.
  unfold swap. destruct (a !! i), (a !! j); try done.
  by rewrite !length_insert.
Qed.

Lemma swap_lookup (a : list A) i j k :
  i < length a → j < length a →
  swap a i j !! k
  = if decide (k = j) then a !! i else if decide (k = i) then a !! j
    else a !! k.
Proof.
  intros Hi Hj. unfold swap.
  destruct (lookup_lt_is_Some_2 a i Hi) as [x Hx].
  destruct (lookup_lt_is_Some_2 a j Hj) as [y Hy].
  rewrite Hx, Hy.
  destruct (decide (k = j)) as [->|Hkj].
  { by rewrite list_lookup_insert_eq by (rewrite length_insert; lia). }
  rewrite list_lookup_insert_ne by done.
  destruct (decide (k = i)) as [->|Hki].
  { by rewrite list_lookup_insert_eq. }
  by rewrite list_lookup_insert_ne.
Qed.

Lemma swap_rangePerm (a : list A) lo hi i j :
  lo ≤ i < hi → lo ≤ j < hi → hi ≤ length a →
  rangePerm lo hi a (swap a i j).
Proof.
  intros Hi Hj Hhi. split; [apply length_swap|]. split.
  - intros k Hk. rewrite swap_lookup by lia.
    repeat case_decide; try done; lia.
  - unfold swap.
    destruct (a !! i) eqn:Hx; [|done]. destruct (a !! j) eqn:Hy; [|done].
    by apply Permutation_insert_swap.
Qed.

Lemma rangePerm_refl lo hi (a : list A) : rangePerm lo hi a a.
Proof. by split; [|split]. Qed.

Lemma rangePerm_trans lo hi (a1 a2 a3 : list A) :
  rangePerm lo hi a1 a2 → rangePerm lo hi a2 a3 → rangePerm lo hi a1 a3.
Proof.
  intros (Hl1 & Hf1 & Hp1) (Hl2 & Hf2 & Hp2). split; [congruence|]. split.
  - intros k Hk. by rewrite Hf2, Hf1.
  - by rewrite Hp2.
Qed.

Lemma rangePerm_weaken lo hi lo' hi' (a a' : list A) :
  lo' ≤ lo → hi ≤ hi' → rangePerm lo hi a a' → rangePerm lo' hi' a a'.
Proof.
  intros Hlo Hhi (Hl & Hf & Hp). split; [done|]. split; [|done].
  intros k Hk. apply Hf. lia.
Qed.

Lemma slice_lookup (a : list A) lo hi k :
  slice a lo hi !! k = if decide (k < hi - lo) then a !! (lo + k) else None.
Proof.
  unfold slice. case_decide.
  - by rewrite lookup_take_lt, lookup_drop.
  - by rewrite lookup_take_ge by lia.
Qed.

Lemma slice_split (a : list A) lo hi :
  lo ≤ hi → a = take lo a ++ slice a lo hi ++ drop hi a.
Proof.
  intros Hle. unfold slice.
  rewrite <- (take_drop lo a) at 1. f_equal.
  rewrite <- (take_drop (hi - lo) (drop lo a)) at 1. f_equal.
  rewrite drop_drop. f_equal. lia.
Qed.

Lemma rangePerm_slice lo hi (a a' : list A) :
  lo ≤ hi → rangePerm lo hi a a' → slice a' lo hi ≡ₚ slice a lo hi.
Proof.
  intros Hle (Hl & Hf & Hp).
  rewrite (slice_split a lo hi Hle), (slice_split a' lo hi Hle) in Hp.
  assert (take lo a' = take lo a) as Htake.
  { apply list_eq. intros k. destruct (decide (k < lo)).
    - rewrite !lookup_take_lt by done. apply Hf. lia.
    - by rewrite !lookup_take_ge by lia. }
  assert (drop hi a' = drop hi a) as Hdrop.
  { apply list_eq. intros k. rewrite !lookup_drop. apply Hf. lia. }
  rewrite Htake, Hdrop in Hp.
  apply (inj (take lo a ++.)) in Hp. by apply (inj (.++ drop hi a)) in Hp.
Qed.

(** What sits in the range after a rearrangement sat in it before. *)
Lemma rangePerm_elem lo hi (a a' : list A) k x :
  rangePerm lo hi a a' → lo ≤ k < hi → a' !! k = Some x →
  ∃ k', lo ≤ k' < hi ∧ a !! k' = Some x.
Proof.
  intros Hperm Hk Hx.
  assert (x ∈ slice a' lo hi) as Hin.
  { apply list_elem_of_lookup. exists (k - lo). rewrite slice_lookup.
    rewrite decide_True by lia. rewrite <- Hx. f_equal. lia. }
  rewrite (rangePerm_slice lo hi a a') in Hin by (done || lia).
  apply list_elem_of_lookup in Hin as [k' Hk']. rewrite slice_lookup in Hk'.
  case_decide; [|done]. exists (lo + k'). split; [lia|done].
Qed.

Lemma partitionLoop_spec pivot left right steps :
  ∀ (a : list A) store i,
    left ≤ store → store ≤ i → i + steps = right → right < length a →
    a !! right = Some pivot →
    (∀ k x, left ≤ k < store → a !! k = Some x → (comparator x pivot < 0)%Z) →
    (∀ k x, store ≤ k < i → a !! k = Some x → ¬ (comparator x pivot < 0)%Z) →
    rangePerm left right a (partitionLoop comparator steps a pivot store i).1
    ∧ store ≤ (partitionLoop comparator steps a pivot store i).2 ≤ right
    ∧ (partitionLoop comparator steps a pivot store i).1 !! right = Some pivot
    ∧ (∀ k x, left ≤ k < (partitionLoop comparator steps a pivot store i).2 →
         (partitionLoop comparator steps a pivot store i).1 !! k = Some x →
         (comparator x pivot < 0)%Z)
    ∧ (∀ k x, (partitionLoop comparator steps a pivot store i).2 ≤ k < right →
         (partitionLoop comparator steps a pivot store i).1 !! k = Some x →
         ¬ (comparator x pivot < 0)%Z).
Proof.
  induction steps as [|steps IH];
    intros a store i Hleft Hstore Hsteps Hright Hpivot Hsmall Hlarge; simpl.
  - split; [apply rangePerm_refl|]. split; [lia|]. split; [done|].
    split; [done|]. intros k x Hk. apply Hlarge. lia.
  - destruct (lookup_lt_is_Some_2 a i) as [y Hy]; [lia|]. rewrite Hy.
    destruct (decide (comparator y pivot < 0)%Z) as [Hlt|Hge].
    + destruct (IH (swap a store i) (S store) (S i)) as (Hp & Hs & Hpv & Hsm & Hlg).
      * lia.
      * lia.
      * lia.
      * by rewrite length_swap.
      * rewrite swap_lookup by lia. by rewrite !decide_False by lia.
      * intros k x Hk. rewrite swap_lookup by lia.
        destruct (decide (k = i)) as [->|Hki].
        { assert (store = i) as -> by lia. rewrite Hy. by intros [= <-]. }
        destruct (decide (k = store)) as [->|Hks].
        { rewrite Hy. by intros [= <-]. }
        apply Hsmall. lia.
      * intros k x Hk. rewrite swap_lookup by lia.
        destruct (decide (k = i)) as [->|Hki].
        { apply Hlarge. lia. }
        rewrite decide_False by lia. apply Hlarge. lia.
      * split; [|split; [lia|done]].
        apply (rangePerm_trans _ _ _ (swap a store i)); [|exact Hp].
        apply swap_rangePerm; lia.
    + destruct (IH a store (S i)) as (Hp & Hs & Hpv & Hsm & Hlg); try done; try lia.
      intros k x Hk Hx. destruct (decide (k = i)) as [->|Hki].
      * rewrite Hy in Hx. by injection Hx as <-.
      * apply (Hlarge k); [lia|done].
Qed.

Lemma partition_spec (a : list A) left right pivotIndex :
  left ≤ pivotIndex → pivotIndex ≤ right → right < length a →
  rangePerm left (S right) a (partition comparator a left right pivotIndex).1
  ∧ left ≤ (partition comparator a left right pivotIndex).2 ≤ right
  ∧ ∃ pivot,
      (partition comparator a left right pivotIndex).1
        !! (partition comparator a left right pivotIndex).2 = Some pivot
      ∧ (∀ k x, left ≤ k < (partition comparator a left right pivotIndex).2 →
           (partition comparator a left right pivotIndex).1 !! k = Some x →
           (comparator x pivot < 0)%Z)
      ∧ (∀ k x, (partition comparator a left right pivotIndex).2 < k ≤ right →
           (partition comparator a left right pivotIndex).1 !! k = Some x →
           ¬ (comparator x pivot < 0)%Z).
Proof.
  intros Hleft Hpr Hright. unfold partition.
  destruct (lookup_lt_is_Some_2 a pivotIndex) as [pivot Hpivot]; [lia|].
  rewrite Hpivot.
  destruct (partitionLoop_spec pivot left right (right - left)
              (swap a right pivotIndex) left left)
    as (Hp & Hs & Hpv & Hsm & Hlg); try lia.
  { rewrite length_swap. lia. }
  { rewrite swap_lookup by lia. case_decide; [by subst|].
    by rewrite decide_True. }
  destruct (partitionLoop comparator (right - left) (swap a right pivotIndex)
              pivot left left) as [a2 store] eqn:Hloop.
  simpl in *.
  assert (length a2 = length a) as Hlen.
  { destruct Hp as [-> _]. apply length_swap. }
  split; [|split; [lia|]].
  - apply (rangePerm_trans _ _ _ (swap a right pivotIndex));
      [apply swap_rangePerm; lia|].
    apply (rangePerm_trans _ _ _ a2);
      [apply (rangePerm_weaken left right); [lia|lia|exact Hp]|].
    apply swap_rangePerm; lia.
  - exists pivot. split; [|split].
    + rewrite swap_lookup by lia. by rewrite decide_True.
    + intros k x Hk. rewrite swap_lookup by lia.
      rewrite !decide_False by lia. by apply Hsm.
    + intros k x Hk. rewrite swap_lookup by lia.
      rewrite decide_False by lia.
      destruct (decide (k = right)) as [->|Hkr].
      * apply Hlg. lia.
      * apply Hlg. lia.
Qed.

Lemma notAfter_of_lt a b : (comparator a b < 0)%Z → notAfter comparator a b.
Proof. unfold notAfter. lia. Qed.

Lemma notAfter_of_not_lt a b :
  totalOrderComparator comparator → ¬ (comparator a b < 0)%Z → notAfter comparator b a.
Proof.
  intros (Hsign & _ & _) Hge. unfold notAfter.
  destruct (decide (comparator b a ≤ 0)%Z) as [|Hgt]; [done|].
  exfalso. apply Hge. apply Hsign. lia.
Qed.

Lemma notAfter_trans a b c :
  totalOrderComparator comparator →
  notAfter comparator a b → notAfter comparator b c → notAfter comparator a c.
Proof. intros (_ & Htrans & _). apply Htrans. Qed.

Lemma quickSortRange_spec random fuel :
  ∀ draws (a : list A) left right sortWindowLeft sortWindowRight,
    right < length a → right - left ≤ fuel →
    ∃ a' draws',
      quickSortRange comparator fuel random draws a left right
        sortWindowLeft sortWindowRight = Some (a', draws')
      ∧ rangePerm left (S right) a a'
      ∧ (totalOrderComparator comparator →
         ∀ i, left ≤ i ≤ right → sortWindowLeft ≤ i ≤ sortWindowRight →
           placed comparator a' left (S right) i).
Proof.
  induction fuel as [|fuel IH];
    intros draws a left right wl wr Hright Hfuel; simpl.
  all: destruct (decide (right ≤ left)) as [Hsmall|Hbig].
  1, 3: exists a, draws; split; [done|]; split; [apply rangePerm_refl|];
    intros _ i Hi _ j x y Hj _ _; lia.
  { lia. }
  set (pivotIndex := random draws `mod` (right - left) + left).
  assert (left ≤ pivotIndex < right) as Hpivot.
  { unfold pivotIndex.
    pose proof (Nat.mod_upper_bound (random draws) (right - left)). lia. }
  destruct (partition_spec a left right pivotIndex)
    as (Hp1 & Hnew & pivot & Hpv & Hlt & Hge); [lia|lia|done|].
  destruct (partition comparator a left right pivotIndex)
    as [a1 p] eqn:Hpart. simpl in *.
  assert (length a1 = length a) as Hlen1 by apply Hp1.
  (* the part before the pivot *)
  assert (∃ a2 draws2,
    (if decide (wl < p)
     then quickSortRange comparator fuel random (S draws) a1 left (p - 1) wl wr
     else Some (a1, S draws)) = Some (a2, draws2)
    ∧ rangePerm left p a1 a2
    ∧ (totalOrderComparator comparator →
       ∀ i, left ≤ i < p → wl ≤ i ≤ wr → placed comparator a2 left p i))
    as (a2 & draws2 & -> & Hp2 & Hplaced2).
  { destruct (decide (wl < p)) as [Hwl|Hwl].
    - destruct (IH (S draws) a1 left (p - 1) wl wr)
        as (a2 & draws2 & Hrun & Hp2 & Hpl); [lia|lia|].
      exists a2, draws2. split; [done|].
      replace (S (p - 1)) with p in * by lia. split; [done|].
      intros Hord i Hi Hw. apply Hpl; [done|lia|done].
    - exists a1, (S draws). split; [done|]. split; [apply rangePerm_refl|].
      intros _ i Hi Hw. lia. }
  simpl.
  assert (length a2 = length a) as Hlen2.
  { destruct Hp2 as [-> _]. done. }
  (* the part after the pivot *)
  assert (∃ a3 draws3,
    (if decide (p < wr)
     then quickSortRange comparator fuel random draws2 a2 (p + 1) right wl wr
     else Some (a2, draws2)) = Some (a3, draws3)
    ∧ rangePerm (S p) (S right) a2 a3
    ∧ (totalOrderComparator comparator →
       ∀ i, p < i ≤ right → wl ≤ i ≤ wr → placed comparator a3 (S p) (S right) i))
    as (a3 & draws3 & -> & Hp3 & Hplaced3).
  { destruct (decide (p < wr)) as [Hwr|Hwr].
    - destruct (IH draws2 a2 (p + 1) right wl wr)
        as (a3 & draws3 & Hrun & Hp3 & Hpl); [lia|lia|].
      exists a3, draws3. split; [done|].
      replace (p + 1) with (S p) in * by lia. split; [done|].
      intros Hord i Hi Hw. apply Hpl; [done|lia|done].
    - exists a2, draws2. split; [done|]. split; [apply rangePerm_refl|].
      intros _ i Hi Hw. lia. }
  exists a3, draws3. split; [done|].
  (* the pivot and the two parts in the final array *)
  assert (a3 !! p = Some pivot) as Hpv3.
  { destruct Hp3 as (_ & Hf3 & _). rewrite Hf3 by lia.
    destruct Hp2 as (_ & Hf2 & _). rewrite Hf2 by lia. done. }
  assert (∀ k x, left ≤ k < p → a3 !! k = Some x → (comparator x pivot < 0)%Z)
    as Hlt3.
  { intros k x Hk Hx.
    destruct Hp3 as (_ & Hf3 & _). rewrite Hf3 in Hx by lia.
    destruct (rangePerm_elem left p a1 a2 k x Hp2 Hk Hx) as (k' & Hk' & Hx').
    by apply (Hlt k'). }
  assert (∀ k x, p < k ≤ right → a3 !! k = Some x → ¬ (comparator x pivot < 0)%Z)
    as Hge3.
  { intros k x Hk Hx.
    destruct (rangePerm_elem (S p) (S right) a2 a3 k x Hp3) as (k' & Hk' & Hx');
      [lia|done|].
    destruct Hp2 as (_ & Hf2 & _). rewrite Hf2 in Hx' by lia.
    apply (Hge k'); [lia|done]. }
  split.
  { apply (rangePerm_trans _ _ _ a1); [done|].
    apply (rangePerm_trans _ _ _ a2).
    - apply (rangePerm_weaken left p); [lia|lia|done].
    - apply (rangePerm_weaken (S p) (S right)); [lia|lia|done]. }
  intros Hord i Hi Hw j x y Hj Hx Hy.
  destruct (decide (i < p)) as [Hip|Hip]; [|destruct (decide (i = p)) as [->|Hnp]].
  - (* [i] is before the pivot *)
    pose proof (Hlt3 i y ltac:(lia) Hy) as Hy_lt.
    destruct (decide (j < p)) as [Hjp|Hjp].
    + destruct Hp3 as (_ & Hf3 & _). rewrite Hf3 in Hx, Hy by lia.
      apply (Hplaced2 Hord i ltac:(lia) Hw j x y); [lia|done|done].
    + split; [lia|]. intros _.
      destruct (decide (j = p)) as [->|Hjnp].
      * rewrite Hpv3 in Hx. injection Hx as <-. by apply notAfter_of_lt.
      * apply (notAfter_trans _ pivot); [done|by apply notAfter_of_lt|].
        apply notAfter_of_not_lt; [done|]. apply (Hge3 j); [lia|done].
  - (* [i] is the pivot *)
    rewrite Hpv3 in Hy. injection Hy as <-. split; intros Hji.
    + apply notAfter_of_lt. apply (Hlt3 j); [lia|done].
    + apply notAfter_of_not_lt; [done|]. apply (Hge3 j); [lia|done].
  - (* [i] is after the pivot *)
    pose proof (Hge3 i y ltac:(lia) Hy) as Hy_ge.
    destruct (decide (p < j)) as [Hjp|Hjp].
    + apply (Hplaced3 Hord i ltac:(lia) Hw j x y); [lia|done|done].
    + split; [|lia]. intros _.
      destruct (decide (j = p)) as [->|Hjnp].
      * rewrite Hpv3 in Hx. injection Hx as <-. by apply notAfter_of_not_lt.
      * apply (notAfter_trans _ pivot); [done| |by apply notAfter_of_not_lt].
        apply notAfter_of_lt. apply (Hlt3 j); [lia|done].
Qed.

(** ** From placed elements to the sorted range *)

Lemma notAfter_Transitive :
  totalOrderComparator comparator → Transitive (notAfter comparator).
Proof. intros Hord a b c. by apply notAfter_trans. Qed.

Lemma notAfter_Total : totalOrderComparator comparator → Total (notAfter comparator).
Proof.
  intros Hord a b.
  destruct (decide (comparator a b ≤ 0)%Z) as [|Hgt]; [by left|right].
  apply notAfter_of_not_lt; [done|]. lia.
Qed.

Lemma notAfter_AntiSymm :
  totalOrderComparator comparator → AntiSymm (=) (notAfter comparator).
Proof.
  intros (Hsign & _ & Hzero) a b Hab Hba. unfold notAfter in *.
  apply Hzero. destruct (decide (comparator a b < 0)%Z) as [Hlt|]; [|lia].
  apply Hsign in Hlt. lia.
Qed.

Lemma sort_Permutation (l : list A) : sort comparator l ≡ₚ l.
Proof. apply merge_sort_Permutation. Qed.

Lemma sort_StronglySorted (l : list A) :
  totalOrderComparator comparator →
  StronglySorted (notAfter comparator) (sort comparator l).
Proof.
  intros Hord. apply StronglySorted_merge_sort.
  - by apply notAfter_Transitive.
  - by apply notAfter_Total.
Qed.

Lemma StronglySorted_lookup (R : relation A) (l : list A) j i x y :
  StronglySorted R l → j < i → l !! j = Some x → l !! i = Some y → R x y.
Proof.
  intros Hsorted. revert j i.
  induction Hsorted as [|z l _ IH Hall]; intros j i Hji Hx Hy; [done|].
  destruct i as [|i]; [lia|]. destruct j as [|j]; simpl in *.
  - injection Hx as <-. by apply (Forall_lookup_1 _ _ i y) in Hall.
  - apply (IH j i); [lia|done|done].
Qed.

(** A list with an element that nothing before it goes after and nothing
    after it goes before has that element where the sorted list has it. *)
Lemma sort_lookup_placed (l : list A) i y :
  totalOrderComparator comparator →
  l !! i = Some y →
  (∀ j x, j < i → l !! j = Some x → notAfter comparator x y) →
  (∀ j x, i < j → l !! j = Some x → notAfter comparator y x) →
  sort comparator l !! i = Some y.
Proof.
  intros Hord Hy Hbefore Hafter.
  assert (sort comparator l
          = sort comparator (take i l) ++ y :: sort comparator (drop (S i) l))
    as ->.
  { apply (@StronglySorted_unique _ (notAfter comparator)
             (notAfter_AntiSymm Hord)).
    - by apply sort_StronglySorted.
    - apply StronglySorted_app. split; [|split].
      + intros x1 x2 Hx1 Hx2. rewrite sort_Permutation in Hx1.
        apply elem_of_take in Hx1 as (j & Hj & Hji).
        assert (notAfter comparator x1 y) as Hx1y by by apply (Hbefore j).
        apply elem_of_cons in Hx2 as [->|Hx2]; [done|].
        rewrite sort_Permutation in Hx2.
        apply list_elem_of_lookup in Hx2 as [k Hk]. rewrite lookup_drop in Hk.
        apply (notAfter_trans _ y); [done|done|].
        apply (Hafter (S i + k)); [lia|done].
      + by apply sort_StronglySorted.
      + constructor; [by apply sort_StronglySorted|].
        apply Forall_forall. intros x Hx. rewrite sort_Permutation in Hx.
        apply list_elem_of_lookup in Hx as [k Hk]. rewrite lookup_drop in Hk.
        apply (Hafter (S i + k)); [lia|done].
    - rewrite !sort_Permutation. by rewrite take_drop_middle. }
  assert (length (sort comparator (take i l)) = i) as Hlen.
  { rewrite sort_Permutation. apply length_take_le.
    apply lookup_lt_Some in Hy. lia. }
  rewrite <- Hlen at 1. by rewrite list_lookup_middle.
Qed.

Lemma placed_lookup_sort (a a' : list A) lo hi i :
  totalOrderComparator comparator →
  rangePerm lo hi a a' → lo ≤ i < hi → hi ≤ length a →
  placed comparator a' lo hi i →
  a' !! i = sort comparator (slice a lo hi) !! (i - lo).
Proof.
  intros Hord Hperm Hi Hhi Hplaced.
  destruct (lookup_lt_is_Some_2 a' i) as [y Hy].
  { destruct Hperm as [-> _]. lia. }
  rewrite Hy. symmetry.
  assert (sort comparator (slice a lo hi) = sort comparator (slice a' lo hi))
    as ->.
  { apply (@StronglySorted_unique _ (notAfter comparator)
             (notAfter_AntiSymm Hord)).
    - by apply sort_StronglySorted.
    - by apply sort_StronglySorted.
    - rewrite !sort_Permutation. symmetry. apply rangePerm_slice; [lia|done]. } apply sort_lookup_placed; [done|..].
  - rewrite slice_lookup, decide_True by lia. rewrite <- Hy. f_equal. lia.
  - intros j x Hj. rewrite slice_lookup. case_decide; [|done]. intros Hx.
    apply (Hplaced (lo + j) x y); [lia|done|done|lia].
  - intros j x Hj. rewrite slice_lookup. case_decide; [|done]. intros Hx.
    apply (Hplaced (lo + j) x y); [lia|done|done|lia].
Qed.

Lemma slice_app (a : list A) lo mid hi :
  lo ≤ mid → mid ≤ hi → slice a lo hi = slice a lo mid ++ slice a mid hi.
Proof.
  intros Hlo Hhi. unfold slice.
  replace (hi - lo) with ((mid - lo) + (hi - mid)) by lia.
  rewrite <- take_take_drop. rewrite drop_drop.
  by replace (lo + (mid - lo)) with mid by lia.
Qed.

(** Both branches of [sortRange] at once. *)
Lemma sortRange_core random (array : list A) left right wl wr :
  left ≤ right → right < length array →
  ∃ actual,
    sortRange comparator random array left right wl wr = Some actual
    ∧ rangePerm left (S right) array actual
    ∧ (totalOrderComparator comparator →
       ∀ i, left ≤ i ≤ right → wl ≤ i ≤ wr → placed comparator actual left (S right) i).
Proof.
  intros Hlr Hright. unfold sortRange.
  destruct (decide _) as [(-> & Hlen & -> & Hwr)|_].
  - exists (sort comparator array). split; [done|]. split.
    + split; [by rewrite sort_Permutation|]. split; [|apply sort_Permutation].
      intros k Hk. rewrite !lookup_ge_None_2; [done|lia|].
      rewrite sort_Permutation. lia.
    + intros Hord i Hi Hw j x y Hj Hx Hy.
      pose proof (sort_StronglySorted array Hord) as Hsorted.
      split; intros Hji.
      * by apply (StronglySorted_lookup _ _ j i x y Hsorted).
      * by apply (StronglySorted_lookup _ _ i j y x Hsorted).
  - destruct (quickSortRange_spec random (S (right - left)) 0 array left right
                wl wr) as (a' & draws' & -> & Hp & Hpl); [done|lia|].
    by exists a'.
Qed.

(** C2.  For a total-order comparator and indices
    [left <= first <= first + count - 1 <= right < length], [sortRange]
    returns, the slice [first .. first + count - 1] of the result is the
    corresponding slice of the sorted range [left .. right], and the other
    elements of the range are a permutation of the other elements of the
    sorted range. *)
Theorem sortRange_sorts_window random (array : list A) left right first count :
  totalOrderComparator comparator →
  left ≤ first → 1 ≤ count → first + count - 1 ≤ right →
  right < length array →
  ∃ actual,
    sortRange comparator random array left right first (first + count - 1)
      = Some actual
    ∧ slice actual first (first + count)
      = slice (sort comparator (slice array left (right + 1)))
          (first - left) (first - left + count)
    ∧ slice actual left first ++ slice actual (first + count) (right + 1)
      ≡ₚ slice (sort comparator (slice array left (right + 1)))
           0 (first - left)
         ++ drop (first - left + count)
              (sort comparator (slice array left (right + 1))).
Proof.
  intros Hord Hfirst Hcount Hlast Hright.
  destruct (sortRange_core random array left right first (first + count - 1))
    as (actual & Hrun & Hperm & Hplaced); [lia|done|].
  exists actual. split; [done|].
  replace (right + 1) with (S right) by lia.
  set (middle := sort comparator (slice array left (S right))).
  assert (slice actual first (first + count)
          = slice middle (first - left) (first - left + count)) as Hwindow.
  { apply list_eq. intros k. rewrite !slice_lookup.
    destruct (decide (k < first + count - first)) as [Hk|Hk].
    - rewrite decide_True by lia.
      rewrite (placed_lookup_sort array actual left (S right) (first + k)
                 Hord Hperm).
      + unfold middle. f_equal. lia.
      + lia.
      + lia.
      + apply Hplaced; [done|lia|lia].
    - by rewrite decide_False by lia. }
  split; [done|].
  assert (slice actual left (S right) ≡ₚ middle) as Hall.
  { unfold middle. rewrite sort_Permutation.
    apply rangePerm_slice; [lia|done]. }
  assert (length middle = S right - left) as Hlen.
  { unfold middle. rewrite sort_Permutation. unfold slice.
    rewrite length_take, length_drop. lia. }
  rewrite (slice_app actual left first (S right)) in Hall by lia.
  rewrite (slice_app actual first (first + count) (S right)) in Hall by lia.
  rewrite Hwindow in Hall.
  assert (middle = slice middle 0 (first - left)
                   ++ slice middle (first - left) (first - left + count)
                   ++ drop (first - left + count) middle) as Hmiddle.
  { rewrite <- (take_drop (first - left + count) middle) at 1.
    rewrite app_assoc. f_equal.
    change (take (first - left + count) middle)
      with (take (first - left + count) (drop 0 middle)).
    replace (first - left + count) with (first - left + count - 0) at 1 by lia.
    apply (slice_app middle 0 (first - left) (first - left + count)); lia. }
  apply (Permutation_app_inv_m
           (slice middle (first - left) (first - left + count))).
  by rewrite <- Hmiddle.
Qed.

(** C6.  [sortRange] returns an array of the same length in which every
    element at an index outside [left .. right] is the one that was there,
    whatever the sort window. *)
Theorem sortRange_outside_unchanged random (array : list A)
    left right sortWindowLeft sortWindowRight :
  right < length array →
  ∃ actual,
    sortRange comparator random array left right sortWindowLeft
      sortWindowRight = Some actual
    ∧ length actual = length array
    ∧ ∀ k, k < left ∨ right < k → actual !! k = array !! k.
Proof.
  intros Hright. destruct (decide (left ≤ right)) as [Hlr|Hlr].
  - destruct (sortRange_core random array left right sortWindowLeft
                sortWindowRight) as (actual & Hrun & (Hlen & Hframe & _) & _);
      [done|done|].
    exists actual. split; [done|]. split; [done|].
    intros k Hk. apply Hframe. lia.
  - exists array. split; [|done]. unfold sortRange.
    rewrite decide_False by lia. simpl. by rewrite decide_True by lia.
Qed.

(** ** The elements after the window *)




End Correctness.

(** ** The model passes the unit test *)

Lemma comparator_totalOrder : totalOrderComparator comparator.
Proof.
  unfold totalOrderComparator, comparator.
  split; [|split]; intros; repeat case_decide; lia.
Qed.

Example removesElements_passes : removesElements = true.
Proof. vm_compute. reflexivity. Qed.

Example sortsRanges_passes :
  forallb (sortsRanges (λ draw, 7 * draw + 3)) fixtures = true.
Proof. vm_compute. reflexivity. Qed.

Example sortRange_fixture :
  sortRange comparator (λ draw, draw) [6; 4; 2; 7; 10; 15; 1]%Z 1 5 2 3
  = Some [6; 2; 4; 7; 10; 15; 1]%Z.
Proof. vm_compute. reflexivity. Qed.

Lemma sortRange_sorts_window_fixture :
  ∃ actual,
    sortRange comparator (λ draw, draw) [6; 4; 2; 7; 10; 15; 1]%Z 1 5 2
      (2 + 2 - 1) = Some actual
    ∧ slice actual 2 (2 + 2)
      = slice (sort comparator (slice [6; 4; 2; 7; 10; 15; 1]%Z 1 (5 + 1)))
          (2 - 1) (2 - 1 + 2)
    ∧ slice actual 1 2 ++ slice actual (2 + 2) (5 + 1)
      ≡ₚ slice (sort comparator (slice [6; 4; 2; 7; 10; 15; 1]%Z 1 (5 + 1)))
           0 (2 - 1)
         ++ drop (2 - 1 + 2)
              (sort comparator (slice [6; 4; 2; 7; 10; 15; 1]%Z 1 (5 + 1))).
Proof.
  apply (sortRange_sorts_window comparator (λ draw, draw)
           [6; 4; 2; 7; 10; 15; 1]%Z 1 5 2 2 comparator_totalOrder);
    simpl; lia.
Defined.

Lemma sortRange_outside_unchanged_fixture :
  ∃ actual,
    sortRange comparator (λ draw, draw) [6; 4; 2; 7; 10; 15; 1]%Z 1 5 2 3
      = Some actual
    ∧ length actual = length [6; 4; 2; 7; 10; 15; 1]%Z
    ∧ ∀ k, k < 1 ∨ 5 < k → actual !! k = [6; 4; 2; 7; 10; 15; 1]%Z !! k.
Proof.
  apply (sortRange_outside_unchanged comparator (λ draw, draw)
           [6; 4; 2; 7; 10; 15; 1]%Z 1 5 2 3).
  simpl. lia.
Defined.

(** ** The unit test on every fixture *)



End ArrayUtilities.

(* ===================================================================== *)
(** * The BiDi frame: disposal and exposed functions *)
(* ===================================================================== *)

Module BidiFrameModel.

Inductive Error : Type :=
  | NewError (message : string)   (* [new Error(message)] *)
  | DetachedFrameError            (* the error of [throwIfDetached] *)
  | OtherError (code : nat).      (* protocol errors, timeouts, ... *)

#[global] Instance Error_eq_dec : EqDecision Error.
Proof. solve_decision. Defined.

Inductive SandboxName : Type := MAIN_SANDBOX | PUPPETEER_SANDBOX.

#[global] Instance SandboxName_eq_dec : EqDecision SandboxName.
Proof. solve_decision. Defined.

(** The calls a frame makes on its collaborators, in the order made. *)
Inductive Call : Type :=
  | AbortReject (error : Error)          (* [#abortDeferred.reject(error)] *)
  | ContextDispose                       (* [#context.dispose()] *)
  | SandboxDispose (sandbox : SandboxName).

#[global] Instance Call_eq_dec : EqDecision Call.
Proof. solve_decision. Defined.

Inductive DeferredState : Type :=
  | Pending
  | Resolved
  | Rejected (error : Error).

(** Modelled from the spec: [Deferred] (util/Deferred.js) is not among the
    sources.  [Deferred.create()] is a pending deferred, and rejecting
    settles a pending deferred with the error; a settled one stays as it
    is. *)
Definition Deferred_create : DeferredState := Pending.

Definition Deferred_reject (deferred : DeferredState) (error : Error)
    : DeferredState :=
  match deferred with
  | Pending => Rejected error
  | _ => deferred
  end.

Inductive NavigationMethod : Type :=
  | MGoto
  | MSetContent
  | MWaitForNavigation.

Inductive Settlement : Type :=
  | Fulfilled
  | RejectedWith (error : Error).

(** A promise returned by [goto], [setContent] or [waitForNavigation];
    [settled = None] while the race inside it is still on. *)
Record Navigation : Type := {
  method : NavigationMethod;
  settled : option Settlement
}.

(** [new ExposeableFunction(frame, name, apply)]; the function is known by
    its identity. *)
Record ExposeableFunction : Type := {
  functionName : string;
  apply : positive
}.

(** The private fields of a frame that disposal and [exposeFunction] work
    on, the promises its navigation methods have returned, and the calls it
    has made on its context, its sandboxes and its abort deferred. *)
Record BidiFrame : Type := {
  abortDeferred : DeferredState;                         (* [#abortDeferred] *)
  disposed : bool;                                       (* [#disposed] *)
  exposedFunctions : gmap string ExposeableFunction;     (* [#exposedFunctions] *)
  inFlight : list Navigation;
  calls : list Call
}.

Section WithNavigationErrors.

(** [rewriteNavigationError] (lifecycle.js) is piped after the race in [goto]
    and [setContent]: it catches an error and throws one again, so it is a
    function from errors to errors here. *)
Variable rewriteNavigationError : Error → Error.

Definition abortError (m : NavigationMethod) (error : Error) : Error :=
  match m with
  | MGoto | MSetContent => rewriteNavigationError error
  | MWaitForNavigation => error
  end.

(** Modelled from the spec: the race [raceWith(timeout(ms),
    from(this.#abortDeferred.valueOrThrow()))] under [firstValueFrom] is
    rxjs and [Deferred], not among the sources.  A promise whose race is
    still on is rejected when the abort deferred is rejected ("rejecting
    in-flight navigation promises on teardown"); a settled promise stays as
    it is.  The model settles the promise at once, where the event loop does
    so in a later microtask. *)
Definition raceAbort (deferred : DeferredState) (nav : Navigation)
    : Navigation :=
  match settled nav, deferred with
  | None, Rejected error =>
      {| method := method nav;
         settled := Some (RejectedWith (abortError (method nav) error)) |}
  | _, _ => nav
  end.

(** The constructor: a pending abort deferred, not disposed, no exposed
    function. *)
Definition newFrame : BidiFrame := {|
  abortDeferred := Deferred_create;
  disposed := false;
  exposedFunctions := ∅;
  inFlight := [];
  calls := []
|}.

(** [get detached()]. *)
Definition detached (this : BidiFrame) : bool := disposed this.

(** [[disposeSymbol]()]. *)
Definition dispose (this : BidiFrame) : BidiFrame :=
  if disposed this then this
  else
    let error := NewError "Frame detached" in
    let deferred := Deferred_reject (abortDeferred this) error in
    {| abortDeferred := deferred;
       disposed := true;
       exposedFunctions := exposedFunctions this;
       inFlight := raceAbort deferred <$> inFlight this;
       calls := calls this
                ++ [AbortReject error; ContextDispose;
                    SandboxDispose MAIN_SANDBOX;
                    SandboxDispose PUPPETEER_SANDBOX] |}.

(** The bodies of [goto], [setContent] and [waitForNavigation] up to their
    [await]: a new promise that races the navigation against the time-out
    and the abort deferred.  The result is the index of the promise. *)
Definition navigate (m : NavigationMethod) (this : BidiFrame)
    : BidiFrame * nat :=
  ({| abortDeferred := abortDeferred this;
      disposed := disposed this;
      exposedFunctions := exposedFunctions this;
      inFlight := inFlight this
                  ++ [raceAbort (abortDeferred this)
                        {| method := m; settled := None |}];
      calls := calls this |},
   length (inFlight this)).

(** Modelled from the spec: the decorator [throwIfDetached] (api/Frame.js)
    is not among the sources.  The decorated method throws when the frame's
    [detached] getter is true and runs the method otherwise. *)
Definition throwIfDetached {R : Type} (target : BidiFrame → BidiFrame * R)
    (this : BidiFrame) : BidiFrame * (Error + R) :=
  if detached this then (this, inl DetachedFrameError)
  else let '(this', result) := target this in (this', inr result).

Definition goto : BidiFrame → BidiFrame * (Error + nat) :=
  throwIfDetached (navigate MGoto).

Definition setContent : BidiFrame → BidiFrame * (Error + nat) :=
  throwIfDetached (navigate MSetContent).

Definition waitForNavigation : BidiFrame → BidiFrame * (Error + nat) :=
  throwIfDetached (navigate MWaitForNavigation).

(** The navigation or the time-out wins the race of promise [i]. *)
Definition settleNavigation (i : nat) (outcome : Settlement)
    (this : BidiFrame) : BidiFrame :=
  {| abortDeferred := abortDeferred this;
     disposed := disposed this;
     exposedFunctions := exposedFunctions this;
     inFlight :=
       alter (λ nav, match settled nav with
                     | None => {| method := method nav;
                                  settled := Some outcome |}
                     | Some _ => nav
                     end) i (inFlight this);
     calls := calls this |}.

Definition withExposedFunctions (this : BidiFrame)
    (functions : gmap string ExposeableFunction) : BidiFrame :=
  {| abortDeferred := abortDeferred this;
     disposed := disposed this;
     exposedFunctions := functions;
     inFlight := inFlight this;
     calls := calls this |}.

(** [exposeFunction(name, apply)].  [exposeOutcome] is what awaiting
    [exposeable.expose()] gives: [None] when it resolves, the error when it
    rejects.  The result is the frame and the error thrown, if any. *)
Definition exposeFunction (name : string) (apply : positive)
    (exposeOutcome : ExposeableFunction → option Error) (this : BidiFrame)
    : BidiFrame * option Error :=
  if decide (is_Some (exposedFunctions this !! name)) then
    (this,
     Some (NewError ("Failed to add page binding with name " +:+ name
                     +:+ ": globalThis['" +:+ name +:+ "'] already exists!")))
  else
    let exposeable := {| functionName := name; apply := apply |} in
    let this1 :=
      withExposedFunctions this (<[name := exposeable]> (exposedFunctions this)) in
    match exposeOutcome exposeable with
    | None => (this1, None)
    | Some error =>
        (withExposedFunctions this1 (delete name (exposedFunctions this1)),
         Some error)
    end.

(** The frames a program can hold. *)
Inductive reachable : BidiFrame → Prop :=
  | reachable_new : reachable newFrame
  | reachable_dispose this : reachable this → reachable (dispose this)
  | reachable_goto this : reachable this → reachable (goto this).1
  | reachable_setContent this :
      reachable this → reachable (setContent this).1
  | reachable_waitForNavigation this :
      reachable this → reachable (waitForNavigation this).1
  | reachable_settle i outcome this :
      reachable this → reachable (settleNavigation i outcome this)
  | reachable_expose name apply exposeOutcome this :
      reachable this →
      reachable (exposeFunction name apply exposeOutcome this).1.

(** A frame with a [goto] in flight. *)
Definition navigatingFrame : BidiFrame := (goto newFrame).1.

(** ** One thing done with a frame *)

(** The four calls of a disposal. *)
Definition disposalCalls : list Call :=
  [AbortReject (NewError "Frame detached"); ContextDispose;
   SandboxDispose MAIN_SANDBOX; SandboxDispose PUPPETEER_SANDBOX].

(** One thing done with a frame. *)
Inductive frameStep : BidiFrame → BidiFrame → Prop :=
  | step_dispose this : frameStep this (dispose this)
  | step_goto this : frameStep this (goto this).1
  | step_setContent this : frameStep this (setContent this).1
  | step_waitForNavigation this : frameStep this (waitForNavigation this).1
  | step_settle i outcome this :
      frameStep this (settleNavigation i outcome this)
  | step_expose name applied exposeOutcome this :
      frameStep this (exposeFunction name applied exposeOutcome this).1.

Definition alreadyExists (name : string) : Error :=
  NewError ("Failed to add page binding with name " +:+ name
            +:+ ": globalThis['" +:+ name +:+ "'] already exists!").

(** ** The abort deferred of a reachable frame *)

Lemma reachable_abortDeferred this :
  reachable this →
  abortDeferred this
  = if disposed this then Rejected (NewError "Frame detached") else Pending.
Proof.
  induction 1 as [|this _ IH|this _ IH|this _ IH|this _ IH|i outcome this _ IH
                  |name applied exposeOutcome this _ IH].
  - done.
  - unfold dispose. destruct (disposed this) eqn:Hd; simpl.
    + by rewrite IH, Hd.
    + by rewrite IH.
  - unfold goto, throwIfDetached, detached.
    destruct (disposed this) eqn:Hd; simpl; by rewrite IH, ?Hd.
  - unfold setContent, throwIfDetached, detached.
    destruct (disposed this) eqn:Hd; simpl; by rewrite IH, ?Hd.
  - unfold waitForNavigation, throwIfDetached, detached.
    destruct (disposed this) eqn:Hd; simpl; by rewrite IH, ?Hd.
  - done.
  - unfold exposeFunction. case_decide; [done|].
    by destruct (exposeOutcome _).
Qed.

Lemma throwIfDetached_detached {R : Type}
    (target : BidiFrame → BidiFrame * R) this :
  detached this = true →
  throwIfDetached target this = (this, inl DetachedFrameError).
Proof. unfold throwIfDetached. by intros ->. Qed.

Lemma dispose_disposed this : disposed (dispose this) = true.
Proof. unfold dispose. by destruct (disposed this) eqn:Hd. Qed.

(** ** The claims *)

(** C5.  Disposing a frame that is not yet disposed rejects the abort
    deferred with [new Error('Frame detached')], so every promise of [goto],
    [setContent] or [waitForNavigation] that is still racing on it is
    rejected; afterwards [detached] is true, and [goto], [setContent] and
    [waitForNavigation] throw through [throwIfDetached] and leave the frame
    as it is. *)
Theorem dispose_rejects_navigations this :
  reachable this → disposed this = false →
  abortDeferred (dispose this) = Rejected (NewError "Frame detached")
  ∧ calls (dispose this)
    = calls this
      ++ [AbortReject (NewError "Frame detached"); ContextDispose;
          SandboxDispose MAIN_SANDBOX; SandboxDispose PUPPETEER_SANDBOX]
  ∧ (∀ i nav, inFlight this !! i = Some nav → settled nav = None →
       inFlight (dispose this) !! i
       = Some {| method := method nav;
                 settled :=
                   Some (RejectedWith
                           (abortError (method nav)
                              (NewError "Frame detached"))) |})
  ∧ detached (dispose this) = true
  ∧ goto (dispose this) = (dispose this, inl DetachedFrameError)
  ∧ setContent (dispose this) = (dispose this, inl DetachedFrameError)
  ∧ waitForNavigation (dispose this) = (dispose this, inl DetachedFrameError).
Proof.
  intros Hreach Hd.
  pose proof (reachable_abortDeferred this Hreach) as Hpending.
  rewrite Hd in Hpending.
  assert (detached (dispose this) = true) as Hdetached
    by apply dispose_disposed.
  split; [|split; [|split; [|split; [done|]]]].
  - unfold dispose. rewrite Hd. simpl. by rewrite Hpending.
  - unfold dispose. by rewrite Hd.
  - intros i nav Hnav Hracing. unfold dispose. rewrite Hd. simpl.
    rewrite list_lookup_fmap, Hnav. simpl.
    unfold raceAbort. by rewrite Hracing, Hpending.
  - unfold goto, setContent, waitForNavigation.
    by rewrite !throwIfDetached_detached.
Qed.

(** C8.  Disposing twice is disposing once: the second call finds the flag
    set and returns the frame as it is, and after the two calls a frame that
    was not disposed has made each of the four calls (rejecting the abort
    deferred, disposing the context and the two sandboxes) exactly once. *)
Theorem dispose_idempotent this :
  dispose (dispose this) = dispose this
  ∧ calls (dispose (dispose this))
    = calls this
      ++ (if disposed this then []
          else [AbortReject (NewError "Frame detached"); ContextDispose;
                SandboxDispose MAIN_SANDBOX; SandboxDispose PUPPETEER_SANDBOX])
  ∧ ∀ call,
      call ∈ [AbortReject (NewError "Frame detached"); ContextDispose;
              SandboxDispose MAIN_SANDBOX; SandboxDispose PUPPETEER_SANDBOX] →
      length (filter (λ c, c = call) (calls (dispose (dispose this))))
      = length (filter (λ c, c = call) (calls this))
        + (if disposed this then 0 else 1).
Proof.
  assert (dispose (dispose this) = dispose this) as Hidem.
  { unfold dispose at 1. by rewrite dispose_disposed. }
  assert (calls (dispose this)
          = calls this
            ++ (if disposed this then []
                else [AbortReject (NewError "Frame detached"); ContextDispose;
                      SandboxDispose MAIN_SANDBOX;
                      SandboxDispose PUPPETEER_SANDBOX])) as Hcalls.
  { unfold dispose. destruct (disposed this); simpl; [|done].
    by rewrite app_nil_r. }
  rewrite Hidem. split; [done|]. split; [done|].
  intros call Hcall. rewrite Hcalls, filter_app, length_app.
  destruct (disposed this); [done|]. f_equal.
  set_unfold. destruct Hcall as [->|[->|[->|[->|[]]]]]; reflexivity.
Qed.

(** C9.  When [exposeFunction] throws, the frame, and the map of exposed
    functions in it, is what it was before the call: a name that is
    already exposed throws before the map is touched, and when [expose()]
    fails the entry just added is deleted again. *)
Theorem exposeFunction_atomic_on_error name applied exposeOutcome this error :
  (exposeFunction name applied exposeOutcome this).2 = Some error →
  (exposeFunction name applied exposeOutcome this).1 = this
  ∧ exposedFunctions (exposeFunction name applied exposeOutcome this).1
    = exposedFunctions this.
Proof.
  unfold exposeFunction. case_decide as Hexposed; [done|].
  destruct (exposeOutcome _) as [error'|]; [|done]. intros _. simpl.
  assert (delete name (<[name := {| functionName := name; apply := applied |}]>
                         (exposedFunctions this))
          = exposedFunctions this) as Hmap.
  { apply delete_insert_id. by apply eq_None_not_Some. }
  split; [|done]. unfold withExposedFunctions. simpl. rewrite Hmap.
  by destruct this.
Qed.

Lemma exposeFunction_exposed name applied exposeOutcome this :
  (exposeFunction name applied exposeOutcome this).2 = None →
  exposedFunctions (exposeFunction name applied exposeOutcome this).1 !! name
  = Some {| functionName := name; apply := applied |}.
Proof.
  unfold exposeFunction. case_decide as Hexposed; [done|].
  destruct (exposeOutcome _) as [error'|]; [done|]. intros _. simpl.
  apply lookup_insert_eq.
Qed.

(** ** The calls of a frame over its life *)

Lemma throwIfDetached_fields {R : Type} (target : BidiFrame → BidiFrame * R)
    this :
  (∀ this, disposed (target this).1 = disposed this
           ∧ calls (target this).1 = calls this
           ∧ abortDeferred (target this).1 = abortDeferred this
           ∧ exposedFunctions (target this).1 = exposedFunctions this) →
  disposed (throwIfDetached target this).1 = disposed this
  ∧ calls (throwIfDetached target this).1 = calls this
  ∧ abortDeferred (throwIfDetached target this).1 = abortDeferred this
  ∧ exposedFunctions (throwIfDetached target this).1 = exposedFunctions this.
Proof.
  intros Htarget. unfold throwIfDetached. destruct (detached this); [done|].
  specialize (Htarget this). by destruct (target this).
Qed.

Lemma exposeFunction_fields name applied exposeOutcome this :
  disposed (exposeFunction name applied exposeOutcome this).1 = disposed this
  ∧ calls (exposeFunction name applied exposeOutcome this).1 = calls this
  ∧ abortDeferred (exposeFunction name applied exposeOutcome this).1
    = abortDeferred this
  ∧ inFlight (exposeFunction name applied exposeOutcome this).1
    = inFlight this.
Proof.
  unfold exposeFunction. case_decide; [done|]. by destruct (exposeOutcome _).
Qed.

Lemma frameStep_unchanged this this' :
  disposed this' = disposed this →
  calls this' = calls this →
  (disposed this = true → disposed this' = true)
  ∧ calls this'
    = calls this
      ++ (if disposed this then []
          else if disposed this' then disposalCalls else []).
Proof. intros -> ->. split; [done|]. destruct (disposed this); by rewrite app_nil_r. Qed.

Lemma frameStep_fields this this' :
  frameStep this this' →
  (disposed this = true → disposed this' = true)
  ∧ calls this'
    = calls this
      ++ (if disposed this then []
          else if disposed this' then disposalCalls else []).
Proof.
  destruct 1 as [this|this|this|this|i outcome this
                 |name applied exposeOutcome this].
  - unfold dispose.
    destruct (disposed this) eqn:Hd; simpl; rewrite ?Hd, ?app_nil_r; done.
  - destruct (throwIfDetached_fields (navigate MGoto)
                this) as (Hd & Hc & _); [done|].
    by apply frameStep_unchanged.
  - destruct (throwIfDetached_fields
                (navigate MSetContent) this)
      as (Hd & Hc & _); [done|].
    by apply frameStep_unchanged.
  - destruct (throwIfDetached_fields
                (navigate MWaitForNavigation) this)
      as (Hd & Hc & _); [done|].
    by apply frameStep_unchanged.
  - by apply frameStep_unchanged.
  - destruct (exposeFunction_fields name applied exposeOutcome this)
      as (Hd & Hc & _).
    by apply frameStep_unchanged.
Qed.

(** X5.  Whatever is done with a frame, it disposes its context and its
    two sandboxes, and rejects its abort deferred, once at most, and then in
    the one call that detaches it: a frame that has become detached has
    made exactly the four calls of one disposal more, a frame that has not
    has made none, and a detached frame stays detached. *)
Theorem disposal_calls_once this this' :
  rtc frameStep this this' →
  (disposed this = true → disposed this' = true)
  ∧ calls this'
    = calls this
      ++ (if disposed this then []
          else if disposed this' then disposalCalls else []).
Proof.
  induction 1 as [this|this middle this' Hstep _ [IHd IHc]].
  - split; [done|]. destruct (disposed this); by rewrite app_nil_r.
  - destruct (frameStep_fields this middle Hstep) as [Hd Hc].
    split; [by intros ?; apply IHd, Hd|].
    rewrite IHc, Hc, <- app_assoc. f_equal.
    destruct (disposed this) eqn:Hthis.
    + by rewrite Hd.
    + destruct (disposed middle) eqn:Hmiddle.
      * by rewrite IHd, app_nil_r.
      * done.
Qed.

(** ** Exposed functions *)

(** X6.  When [exposeFunction] returns without an error the name was not
    exposed before, the map is the old one with the new entry, the rest of
    the frame is untouched, and every later call with the same name throws
    the "already exists" error and leaves the frame as it is. *)
Theorem exposeFunction_then_duplicate name applied exposeOutcome this :
  (exposeFunction name applied exposeOutcome this).2 = None →
  exposedFunctions this !! name = None
  ∧ (exposeFunction name applied exposeOutcome this).1
    = withExposedFunctions this
        (<[name := {| functionName := name; apply := applied |}]>
           (exposedFunctions this))
  ∧ ∀ applied' exposeOutcome',
      exposeFunction name applied' exposeOutcome'
        (exposeFunction name applied exposeOutcome this).1
      = ((exposeFunction name applied exposeOutcome this).1,
         Some (alreadyExists name)).
Proof.
  intros Hok.
  assert (exposedFunctions this !! name = None
          ∧ (exposeFunction name applied exposeOutcome this).1
            = withExposedFunctions this
                (<[name := {| functionName := name; apply := applied |}]>
                   (exposedFunctions this))) as [Hnew Hfirst].
  { revert Hok. unfold exposeFunction. case_decide as Hexposed; [done|].
    destruct (exposeOutcome _) as [error|]; [done|]. intros _.
    split; [by apply eq_None_not_Some|done]. }
  split; [done|]. split; [done|]. rewrite Hfirst.
  intros applied' exposeOutcome'. unfold exposeFunction, alreadyExists. simpl.
  rewrite decide_True; [done|]. rewrite lookup_insert_eq. eauto.
Qed.

End WithNavigationErrors.

(** ** On a frame with a navigation in flight *)

Example navigatingFrame_disposed :
  inFlight (dispose id (navigatingFrame id))
  = [ {| method := MGoto;
         settled := Some (RejectedWith (NewError "Frame detached")) |} ].
Proof. reflexivity. Qed.

Lemma dispose_rejects_navigations_navigating :
  abortDeferred (dispose id (navigatingFrame id))
    = Rejected (NewError "Frame detached")
  ∧ calls (dispose id (navigatingFrame id))
    = calls (navigatingFrame id)
      ++ [AbortReject (NewError "Frame detached"); ContextDispose;
          SandboxDispose MAIN_SANDBOX; SandboxDispose PUPPETEER_SANDBOX]
  ∧ (∀ i nav, inFlight (navigatingFrame id) !! i = Some nav →
       settled nav = None →
       inFlight (dispose id (navigatingFrame id)) !! i
       = Some {| method := method nav;
                 settled :=
                   Some (RejectedWith
                           (abortError id (method nav)
                              (NewError "Frame detached"))) |})
  ∧ detached (dispose id (navigatingFrame id)) = true
  ∧ goto id (dispose id (navigatingFrame id))
    = (dispose id (navigatingFrame id), inl DetachedFrameError)
  ∧ setContent id (dispose id (navigatingFrame id))
    = (dispose id (navigatingFrame id), inl DetachedFrameError)
  ∧ waitForNavigation id (dispose id (navigatingFrame id))
    = (dispose id (navigatingFrame id), inl DetachedFrameError).
Proof.
  apply (dispose_rejects_navigations id (navigatingFrame id)).
  - apply reachable_goto, reachable_new.
  - reflexivity.
Defined.

(** [expose()] fails on a fresh frame. *)
Lemma exposeFunction_atomic_on_error_fresh :
  (exposeFunction "send" 1%positive (λ _, Some (OtherError 0)) newFrame).1
  = newFrame
  ∧ exposedFunctions
      (exposeFunction "send" 1%positive (λ _, Some (OtherError 0)) newFrame).1
    = exposedFunctions newFrame.
Proof.
  apply (exposeFunction_atomic_on_error "send" 1%positive
           (λ _, Some (OtherError 0)) newFrame (OtherError 0)).
  vm_compute. reflexivity.
Defined.

(** The name is exposed already. *)
Example exposeFunction_twice :
  let this := (exposeFunction "send" 1%positive (λ _, None) newFrame).1 in
  exposeFunction "send" 2%positive (λ _, None) this
  = (this,
     Some (NewError "Failed to add page binding with name send: globalThis['send'] already exists!")).
Proof. vm_compute. reflexivity. Qed.

(** X5 on a frame with a navigation in flight, disposed twice. *)
Lemma disposal_calls_once_navigating :
  calls (dispose id
           (dispose id (goto id newFrame).1))
  = disposalCalls.
Proof.
  destruct (disposal_calls_once id newFrame
              (dispose id
                 (dispose id (goto id newFrame).1)))
    as [_ Hcalls].
  - eapply rtc_l; [apply step_goto|].
    eapply rtc_l; [apply step_dispose|].
    apply rtc_once, step_dispose.
  - exact Hcalls.
Defined.

(** X6 on a fresh frame. *)
Lemma exposeFunction_then_duplicate_fresh :
  exposedFunctions newFrame !! "send" = None
  ∧ (exposeFunction "send" 1%positive (λ _, None) newFrame).1
    = withExposedFunctions newFrame
        (<["send" := {| functionName := "send"; apply := 1%positive |}]>
           (exposedFunctions newFrame))
  ∧ ∀ applied' exposeOutcome',
      exposeFunction "send" applied' exposeOutcome'
        (exposeFunction "send" 1%positive (λ _, None) newFrame).1
      = ((exposeFunction "send" 1%positive (λ _, None) newFrame).1,
         Some (alreadyExists "send")).
Proof.
  apply (exposeFunction_then_duplicate "send" 1%positive (λ _, None) newFrame).
  reflexivity.
Defined.

End BidiFrameModel.

(* ===================================================================== *)
(** * The visual-logging driver *)
(* ===================================================================== *)

Module LoggingDriver.

(** Loggables (elements and other objects), DOM nodes and documents are
    JavaScript objects, known by their identity. *)
Abbreviation Loggable := positive (only parsing).
Abbreviation Node := positive (only parsing).
Abbreviation Document := positive (only parsing).

Record DOMRect : Type := { width : nat; height : nat }.

Record Throttler : Type := { timeout : nat }.

(** The throttlers of the interaction events, set together by
    [startLogging]. *)
Record LogThrottlers : Type := {
  keyboardLogThrottler : Throttler;
  hoverLogThrottler : Throttler;
  dragLogThrottler : Throttler;
  clickLogThrottler : Throttler;
  resizeLogThrottler : Throttler
}.

Record LoggingConfig : Type := {
  ve : nat;
  track : option (gmap string (option string))
}.

(** [config.track?.has(name)]. *)
Definition tracks (config : LoggingConfig) (name : string) : bool :=
  match track config with
  | Some events => bool_decide (is_Some (events !! name))
  | None => false
  end.

(** The cached state of a loggable.  [parent] points to the state object of
    the parent loggable, given here by the loggable it belongs to. *)
Record LoggingState : Type := {
  impressionLogged : bool;
  processed : bool;
  config : LoggingConfig;
  parent : option Loggable;
  size : option DOMRect;
  selectOpen : bool;
  processedForDebugging : bool
}.

(** An entry of [getDomState(documents).loggables]. *)
Record DomLoggable : Type := {
  element : Loggable;
  elementParent : option Loggable
}.

Record DomState : Type := {
  loggables : list DomLoggable;
  shadowRoots : list Node
}.

(** An entry of the registry of loggables without a DOM element. *)
Record NonDomLoggable : Type := {
  loggable : Loggable;
  loggableConfig : LoggingConfig;
  loggableParent : option Loggable
}.

(** What the page looks like when the driver runs: the answers of the
    browser and of the helpers that read the DOM ([getDomState],
    [getLoggingConfig], [visibleOverlap]). *)
Record Page : Type := {
  document : Document;
  hidden : bool;                                    (* [document.hidden] *)
  body : Document → Node;
  readyState : Document → string;
  getDomState : list Document → DomState;
  tagName : Loggable → string;
  getLoggingConfig : Loggable → LoggingConfig;
  visibleOverlap : Loggable → option DOMRect
}.

(** The module-level variables of the driver, the state kept by the modules
    it imports ([LoggingState], [NonDomState]), and what it has asked of the
    browser so far. *)
Record Driver : Type := {
  logging : bool;
  processingThrottler : option Throttler;
  logThrottlers : option LogThrottlers;
  documents : list Document;
  mutationObservers : gset Node;        (* keys of the WeakMap *)
  veDebuggingEnabled : bool;
  debugPopover : bool;                  (* [debugPopover] is not null *)
  loggingStates : gmap Loggable LoggingState;
  registry : list NonDomLoggable;
  (* the browser *)
  observed : gset Node;                 (* roots with a connected observer *)
  documentListeners : gset (Document * string);
  scheduled : nat;                      (* calls of [processingThrottler.schedule] *)
  installed : list (Loggable * list string);
  impressions : list (list Loggable)    (* arguments of [logImpressions] *)
}.

Definition PROCESS_DOM_INTERVAL : nat := 500.
Definition KEYBOARD_LOG_INTERVAL : nat := 3000.
Definition HOVER_LOG_INTERVAL : nat := 1000.
Definition DRAG_LOG_INTERVAL : nat := 500.
Definition CLICK_LOG_INTERVAL : nat := 500.
Definition RESIZE_LOG_INTERVAL : nat := 1000.

(** The module before [startLogging]: the throttlers are not set yet. *)
Definition initial : Driver := {|
  logging := false;
  processingThrottler := None;
  logThrottlers := None;
  documents := [];
  mutationObservers := ∅;
  veDebuggingEnabled := false;
  debugPopover := false;
  loggingStates := ∅;
  registry := [];
  observed := ∅;
  documentListeners := ∅;
  scheduled := 0;
  installed := [];
  impressions := []
|}.

(** ** The imported state modules *)

(** Modelled from the spec: [getOrCreateLoggingState] (LoggingState.js) is
    not among the sources.  It is the "state caching" of the driver: the
    state of a loggable is created once, with both flags false, and the same
    state object is returned from then on. *)
Definition getOrCreateLoggingState (states : gmap Loggable LoggingState)
    (l : Loggable) (c : LoggingConfig) (p : option Loggable)
    : gmap Loggable LoggingState * LoggingState :=
  match states !! l with
  | Some state => (states, state)
  | None =>
      let state := {|
        impressionLogged := false;
        processed := false;
        config := c;
        parent := p' ← p; _ ← states !! p'; Some p';
        size := None;
        selectOpen := false;
        processedForDebugging := false
      |} in
      (<[l := state]> states, state)
  end.

(** Modelled from the spec: the registry of NonDomState.js is not among the
    sources.  It keeps one entry per loggable in the order of registration;
    [getNonDomState] returns a copy of it. *)
Definition registerLoggable (l : Loggable) (c : LoggingConfig)
    (p : option Loggable) (entries : list NonDomLoggable)
    : list NonDomLoggable :=
  let entry := {| loggable := l; loggableConfig := c; loggableParent := p |} in
  if decide (l ∈ loggable <$> entries)
  then (λ e, if decide (loggable e = l) then entry else e) <$> entries
  else entries ++ [entry].

(** Modelled from the spec: [unregisterLoggable] of the same registry takes
    the entry of the loggable out. *)
Definition unregisterLoggable (l : Loggable) (entries : list NonDomLoggable)
    : list NonDomLoggable :=
  filter (λ e, loggable e ≠ l) entries.

(** Modelled from the spec: [unregisterAllLoggables] empties the registry. *)
Definition unregisterAllLoggables : list NonDomLoggable := [].

(** ** Observing mutations *)

Definition withObservers (observers watched : gset Node) (this : Driver)
    : Driver := {|
  logging := logging this;
  processingThrottler := processingThrottler this;
  logThrottlers := logThrottlers this;
  documents := documents this;
  mutationObservers := observers;
  veDebuggingEnabled := veDebuggingEnabled this;
  debugPopover := debugPopover this;
  loggingStates := loggingStates this;
  registry := registry this;
  observed := watched;
  documentListeners := documentListeners this;
  scheduled := scheduled this;
  installed := installed this;
  impressions := impressions this
|}.

(** The body of the loop of [observeMutations]: a root without an observer
    gets one, which is connected and kept in the map. *)
Definition observeRoot (this : Driver) (root : Node) : Driver :=
  if decide (root ∈ mutationObservers this) then this
  else withObservers ({[root]} ∪ mutationObservers this)
         ({[root]} ∪ observed this) this.

Definition observeMutations (roots : list Node) (this : Driver) : Driver :=
  foldl observeRoot this roots.

(** [mutationObservers.get(root)?.disconnect();
    mutationObservers.delete(root)]. *)
Definition disconnectRoot (this : Driver) (root : Node) : Driver :=
  withObservers (mutationObservers this ∖ {[root]})
    (if decide (root ∈ mutationObservers this)
     then observed this ∖ {[root]} else observed this) this.

(** ** [scheduleProcessing] *)

Definition scheduleProcessing (this : Driver) : Driver :=
  match processingThrottler this with
  | None => this
  | Some _ => {|
      logging := logging this;
      processingThrottler := processingThrottler this;
      logThrottlers := logThrottlers this;
      documents := documents this;
      mutationObservers := mutationObservers this;
      veDebuggingEnabled := veDebuggingEnabled this;
      debugPopover := debugPopover this;
      loggingStates := loggingStates this;
      registry := registry this;
      observed := observed this;
      documentListeners := documentListeners this;
      scheduled := S (scheduled this);
      installed := installed this;
      impressions := impressions this
    |}
  end.

(** ** [process] *)

Definition setImpressionLogged (state : LoggingState) : LoggingState := {|
  impressionLogged := true;
  processed := processed state;
  config := config state;
  parent := parent state;
  size := size state;
  selectOpen := selectOpen state;
  processedForDebugging := processedForDebugging state
|}.

Definition setProcessed (state : LoggingState) : LoggingState := {|
  impressionLogged := impressionLogged state;
  processed := true;
  config := config state;
  parent := parent state;
  size := size state;
  selectOpen := selectOpen state;
  processedForDebugging := processedForDebugging state
|}.

Definition setSize (rect : DOMRect) (state : LoggingState) : LoggingState := {|
  impressionLogged := impressionLogged state;
  processed := processed state;
  config := config state;
  parent := parent state;
  size := Some rect;
  selectOpen := selectOpen state;
  processedForDebugging := processedForDebugging state
|}.

Definition setSelectOpen (state : LoggingState) : LoggingState := {|
  impressionLogged := impressionLogged state;
  processed := processed state;
  config := config state;
  parent := parent state;
  size := size state;
  selectOpen := true;
  processedForDebugging := processedForDebugging state
|}.

Definition setProcessedForDebugging (state : LoggingState) : LoggingState := {|
  impressionLogged := impressionLogged state;
  processed := processed state;
  config := config state;
  parent := parent state;
  size := size state;
  selectOpen := selectOpen state;
  processedForDebugging := true
|}.

(** [loggingState.parent?.selectOpen] and
    [loggingState.parent.impressionLogged], read from the parent's state
    object. *)
Definition parentSelectOpen (states : gmap Loggable LoggingState)
    (state : LoggingState) : bool :=
  match parent state with
  | Some p => from_option selectOpen false (states !! p)
  | None => false
  end.

Definition parentImpressionLogged (states : gmap Loggable LoggingState)
    (state : LoggingState) : bool :=
  match parent state with
  | Some p => from_option impressionLogged false (states !! p)
  | None => false
  end.

(** The listeners and observers that the [if (!loggingState.processed)]
    block puts on an element, by event name, in the order of the block. *)
Definition listenersFor (c : LoggingConfig) (tag : string) : list string :=
  (if tracks c "click" then ["click"] else [])
  ++ (if tracks c "dblclick" then ["dblclick"] else [])
  ++ (if tracks c "hover" then ["mouseover"; "mouseout"] else [])
  ++ (if tracks c "drag" then ["pointerdown"; "pointerup"] else [])
  ++ (if tracks c "change" then ["change"] else [])
  ++ (if tracks c "keydown" then ["keydown"] else [])
  ++ (if tracks c "resize"
      then ["ResizeObserver"; "IntersectionObserver"] else [])
  ++ (if decide (tag = "SELECT")
      then ["click"; "keydown"; "keypress"; "change"] else []).

(** What the two loops of [process] work on: the cached states, the
    registry, [visibleLoggables], and the listeners installed. *)
Record Pass : Type := {
  passStates : gmap Loggable LoggingState;
  passRegistry : list NonDomLoggable;
  visibleLoggables : list Loggable;
  passInstalled : list (Loggable * list string)
}.

(** The body of [for (const {element, parent} of loggables)].  The state
    object is changed in place; here it is written back at the end. *)
Definition processElement (page : Page) (debugging popover : bool)
    (pass : Pass) (entry : DomLoggable) : Pass :=
  let el := element entry in
  let '(states, loggingState) :=
    getOrCreateLoggingState (passStates pass) el (getLoggingConfig page el)
      (elementParent entry) in
  (* if (!loggingState.impressionLogged) *)
  let '(loggingState1, visible) :=
    if impressionLogged loggingState then (loggingState, [])
    else
      let overlap := visibleOverlap page el in
      let visibleSelectOption :=
        bool_decide (tagName page el = "OPTION")
        && parentSelectOpen states loggingState in
      match overlap with
      | Some rect => (setImpressionLogged (setSize rect loggingState), [el])
      | None =>
          if visibleSelectOption
          then (setImpressionLogged loggingState, [el])
          else (loggingState, [])
      end in
  (* if (!loggingState.processed) *)
  let '(loggingState2, listeners) :=
    if processed loggingState1 then (loggingState1, [])
    else (setProcessed loggingState1,
          [(el, listenersFor (config loggingState1) (tagName page el))]) in
  (* if (veDebuggingEnabled && !loggingState.processedForDebugging) *)
  let loggingState3 :=
    if debugging && negb (processedForDebugging loggingState2) then
      if decide (tagName page el = "OPTION") then
        if parentSelectOpen states loggingState2 && popover
        then setProcessedForDebugging loggingState2
        else loggingState2
      else setProcessedForDebugging loggingState2
    else loggingState2 in
  {| passStates := <[el := loggingState3]> states;
     passRegistry := passRegistry pass;
     visibleLoggables := visibleLoggables pass ++ visible;
     passInstalled := passInstalled pass ++ listeners |}.

(** The body of [for (const {loggable, config, parent} of
    getNonDomState().loggables)].  The debugging overlay in it only draws on
    the page; the parent element it asserts is the popover at the least,
    which [setVeDebuggingEnabled] creates. *)
Definition processNonDomLoggable (pass : Pass) (entry : NonDomLoggable)
    : Pass :=
  let '(states, loggingState) :=
    getOrCreateLoggingState (passStates pass) (loggable entry)
      (loggableConfig entry) (loggableParent entry) in
  let visible :=
    match parent loggingState with
    | None => true
    | Some _ => parentImpressionLogged states loggingState
    end in
  if negb visible then
    {| passStates := states;
       passRegistry := passRegistry pass;
       visibleLoggables := visibleLoggables pass;
       passInstalled := passInstalled pass |}
  else
    {| passStates :=
         <[loggable entry := setImpressionLogged loggingState]> states;
       passRegistry := unregisterLoggable (loggable entry) (passRegistry pass);
       visibleLoggables := visibleLoggables pass ++ [loggable entry];
       passInstalled := passInstalled pass |}.

(** The two loops, from the states and the registry at the start. *)
Definition processLoops (page : Page) (this : Driver) : Pass :=
  let afterElements :=
    foldl (processElement page (veDebuggingEnabled this) (debugPopover this))
      {| passStates := loggingStates this;
         passRegistry := registry this;
         visibleLoggables := [];
         passInstalled := [] |}
      (loggables (getDomState page (documents this))) in
  foldl processNonDomLoggable afterElements (passRegistry afterElements).

Definition process (page : Page) (this : Driver) : Driver :=
  if hidden page then this
  else
    let this1 :=
      observeMutations (shadowRoots (getDomState page (documents this))) this in
    let pass := processLoops page this in
    {| logging := logging this1;
       processingThrottler := processingThrottler this1;
       logThrottlers := logThrottlers this1;
       documents := documents this1;
       mutationObservers := mutationObservers this1;
       veDebuggingEnabled := veDebuggingEnabled this1;
       debugPopover := debugPopover this1;
       loggingStates := passStates pass;
       registry := passRegistry pass;
       observed := observed this1;
       documentListeners := documentListeners this1;
       scheduled := scheduled this1;
       installed := installed this1 ++ passInstalled pass;
       impressions := impressions this1 ++ [visibleLoggables pass] |}.

(** ** Starting and stopping *)

Definition addDocument (page : Page) (doc : Document) (this : Driver)
    : Driver :=
  let pushed := {|
    logging := logging this;
    processingThrottler := processingThrottler this;
    logThrottlers := logThrottlers this;
    documents := documents this ++ [doc];
    mutationObservers := mutationObservers this;
    veDebuggingEnabled := veDebuggingEnabled this;
    debugPopover := debugPopover this;
    loggingStates := loggingStates this;
    registry := registry this;
    observed := observed this;
    documentListeners := documentListeners this;
    scheduled := scheduled this;
    installed := installed this;
    impressions := impressions this
  |} in
  let afterProcess :=
    if decide (readyState page doc ∈ ["interactive"; "complete"])
    then process page pushed else pushed in
  observeMutations [body page doc] {|
    logging := logging afterProcess;
    processingThrottler := processingThrottler afterProcess;
    logThrottlers := logThrottlers afterProcess;
    documents := documents afterProcess;
    mutationObservers := mutationObservers afterProcess;
    veDebuggingEnabled := veDebuggingEnabled afterProcess;
    debugPopover := debugPopover afterProcess;
    loggingStates := loggingStates afterProcess;
    registry := registry afterProcess;
    observed := observed afterProcess;
    documentListeners :=
      {[ (doc, "visibilitychange"); (doc, "scroll") ]}
      ∪ documentListeners afterProcess;
    scheduled := scheduled afterProcess;
    installed := installed afterProcess;
    impressions := impressions afterProcess
  |}.

(** The throttlers of [options], when given. *)
Record Options : Type := {
  optProcessingThrottler : option Throttler;
  optKeyboardLogThrottler : option Throttler;
  optHoverLogThrottler : option Throttler;
  optDragLogThrottler : option Throttler;
  optClickLogThrottler : option Throttler;
  optResizeLogThrottler : option Throttler
}.

Definition startLogging (page : Page) (options : option Options)
    (this : Driver) : Driver :=
  let given (field : Options → option Throttler) (interval : nat) :=
    default {| timeout := interval |} (options ≫= field) in
  addDocument page (document page) {|
    logging := true;
    processingThrottler :=
      Some (given optProcessingThrottler PROCESS_DOM_INTERVAL);
    logThrottlers := Some {|
      keyboardLogThrottler :=
        given optKeyboardLogThrottler KEYBOARD_LOG_INTERVAL;
      hoverLogThrottler := given optHoverLogThrottler HOVER_LOG_INTERVAL;
      dragLogThrottler := given optDragLogThrottler DRAG_LOG_INTERVAL;
      clickLogThrottler := given optClickLogThrottler CLICK_LOG_INTERVAL;
      resizeLogThrottler := given optResizeLogThrottler RESIZE_LOG_INTERVAL
    |};
    documents := documents this;
    mutationObservers := mutationObservers this;
    veDebuggingEnabled := veDebuggingEnabled this;
    debugPopover := debugPopover this;
    loggingStates := loggingStates this;
    registry := registry this;
    observed := observed this;
    documentListeners := documentListeners this;
    scheduled := scheduled this;
    installed := installed this;
    impressions := impressions this
  |}.

(** The first part of [stopLogging]: [logging = false],
    [unregisterAllLoggables()], and the two listeners taken off every
    document. *)
Definition stopListening (this : Driver) : Driver := {|
  logging := false;
  processingThrottler := processingThrottler this;
  logThrottlers := logThrottlers this;
  documents := documents this;
  mutationObservers := mutationObservers this;
  veDebuggingEnabled := veDebuggingEnabled this;
  debugPopover := debugPopover this;
  loggingStates := loggingStates this;
  registry := unregisterAllLoggables;
  observed := observed this;
  documentListeners :=
    documentListeners this
    ∖ list_to_set
        (doc ← documents this; [(doc, "visibilitychange"); (doc, "scroll")]);
  scheduled := scheduled this;
  installed := installed this;
  impressions := impressions this
|}.

(** The last part: [documents.length = 0; processingThrottler = null]. *)
Definition forgetDocuments (this : Driver) : Driver := {|
  logging := logging this;
  processingThrottler := None;
  logThrottlers := logThrottlers this;
  documents := [];
  mutationObservers := mutationObservers this;
  veDebuggingEnabled := veDebuggingEnabled this;
  debugPopover := debugPopover this;
  loggingStates := loggingStates this;
  registry := registry this;
  observed := observed this;
  documentListeners := documentListeners this;
  scheduled := scheduled this;
  installed := installed this;
  impressions := impressions this
|}.

(** [stopLogging]: between the two parts, the observer of every document's
    body and of every shadow root of [getDomState(documents)] is
    disconnected and deleted. *)
Definition stopLogging (page : Page) (this : Driver) : Driver :=
  let bodiesDone :=
    foldl disconnectRoot (stopListening this) (body page <$> documents this) in
  let rootsDone :=
    foldl disconnectRoot bodiesDone
      (shadowRoots (getDomState page (documents this))) in
  forgetDocuments rootsDone.

(** ** What happens to a driver *)

(** [onSelectOpen], the handler that [process] puts on a [SELECT]. *)
Definition onSelectOpen (el : Loggable) (this : Driver) : Driver :=
  match loggingStates this !! el with
  | None => this
  | Some loggingState =>
      if selectOpen loggingState then this
      else scheduleProcessing {|
        logging := logging this;
        processingThrottler := processingThrottler this;
        logThrottlers := logThrottlers this;
        documents := documents this;
        mutationObservers := mutationObservers this;
        veDebuggingEnabled := veDebuggingEnabled this;
        debugPopover := debugPopover this;
        loggingStates :=
          <[el := setSelectOpen loggingState]> (loggingStates this);
        registry := registry this;
        observed := observed this;
        documentListeners := documentListeners this;
        scheduled := scheduled this;
        installed := installed this;
        impressions := impressions this
      |}
  end.

(** A caller registers a loggable that has no element. *)
Definition register (l : Loggable) (c : LoggingConfig) (p : option Loggable)
    (this : Driver) : Driver := {|
  logging := logging this;
  processingThrottler := processingThrottler this;
  logThrottlers := logThrottlers this;
  documents := documents this;
  mutationObservers := mutationObservers this;
  veDebuggingEnabled := veDebuggingEnabled this;
  debugPopover := debugPopover this;
  loggingStates := loggingStates this;
  registry := registerLoggable l c p (registry this);
  observed := observed this;
  documentListeners := documentListeners this;
  scheduled := scheduled this;
  installed := installed this;
  impressions := impressions this
|}.

(** [setVeDebuggingEnabled]. *)
Definition setVeDebuggingEnabled (enabled : bool) (this : Driver) : Driver := {|
  logging := logging this;
  processingThrottler := processingThrottler this;
  logThrottlers := logThrottlers this;
  documents := documents this;
  mutationObservers := mutationObservers this;
  veDebuggingEnabled := enabled;
  debugPopover := debugPopover this || enabled;
  loggingStates := loggingStates this;
  registry := registry this;
  observed := observed this;
  documentListeners := documentListeners this;
  scheduled := scheduled this;
  installed := installed this;
  impressions := impressions this
|}.

Inductive Action : Type :=
  | StartLogging (page : Page) (options : option Options)
  | AddDocument (page : Page) (doc : Document)
  | StopLogging (page : Page)
  | ScheduleProcessing
  | Process (page : Page)
  | SelectOpen (el : Loggable)
  | Register (l : Loggable) (c : LoggingConfig) (p : option Loggable)
  | SetVeDebuggingEnabled (enabled : bool).

Definition run (this : Driver) (action : Action) : Driver :=
  match action with
  | StartLogging page options => startLogging page options this
  | AddDocument page doc => addDocument page doc this
  | StopLogging page => stopLogging page this
  | ScheduleProcessing => scheduleProcessing this
  | Process page => process page this
  | SelectOpen el => onSelectOpen el this
  | Register l c p => register l c p this
  | SetVeDebuggingEnabled enabled => setVeDebuggingEnabled enabled this
  end.

Definition runAll (actions : list Action) : Driver := foldl run initial actions.

(** ** What the claims count *)

Definition impressionLoggedOf (states : gmap Loggable LoggingState)
    (l : Loggable) : bool :=
  from_option impressionLogged false (states !! l).

Definition processedOf (states : gmap Loggable LoggingState) (l : Loggable)
    : bool :=
  from_option processed false (states !! l).

(** How often [l] was handed to [logImpressions]. *)
Definition impressionsOf (l : Loggable) (batches : list (list Loggable))
    : nat :=
  length (filter (λ x, x = l) (concat batches)).

(** How often the listeners of [l] were installed. *)
Definition installationsOf (l : Loggable)
    (installations : list (Loggable * list string)) : nat :=
  length (filter (λ x, x.1 = l) installations).

(** How often [l] is registered in a list of actions, and in a registry. *)
Definition registers (l : Loggable) (action : Action) : bool :=
  match action with
  | Register l' _ _ => bool_decide (l' = l)
  | _ => false
  end.

Definition registrationsOf (l : Loggable) (actions : list Action) : nat :=
  length (filter (λ action, registers l action = true) actions).

Definition registeredOf (l : Loggable) (entries : list NonDomLoggable) : nat :=
  length (filter (λ e, loggable e = l) entries).

(** How often [l] occurs in a list of loggables. *)
Definition occurrences (l : positive) (xs : list positive) : nat :=
  length (filter (λ x, x = l) xs).

(** The counts of [l] during a pass, above what was installed ([i0]) and
    logged ([m0]) before it; [r] bounds the registrations of [l] so far. *)
Definition passInv (l : positive) (i0 m0 r : nat) (pass : Pass) : Prop :=
  i0 + installationsOf l (passInstalled pass)
    ≤ Nat.b2n (processedOf (passStates pass) l)
  ∧ m0 + occurrences l (visibleLoggables pass)
       + registeredOf l (passRegistry pass)
    ≤ Nat.b2n (impressionLoggedOf (passStates pass) l) + r
  ∧ NoDup (loggable <$> passRegistry pass).

(** What every action keeps for the loggable [l], with [r] registrations of
    it so far. *)
Definition driverInv (l : positive) (r : nat) (this : Driver) : Prop :=
  installationsOf l (installed this)
    ≤ Nat.b2n (processedOf (loggingStates this) l)
  ∧ impressionsOf l (impressions this) + registeredOf l (registry this)
    ≤ Nat.b2n (impressionLoggedOf (loggingStates this) l) + r
  ∧ NoDup (loggable <$> registry this).

(** [sameButObservers this this']: only the observers differ. *)
Definition sameButObservers (this this' : Driver) : Prop :=
  this' = withObservers (mutationObservers this') (observed this') this.

(** ** What every driver keeps *)

(** What the two loops keep of the flags, above the loggables logged
    ([logged]) and the installations made ([made]) before the run. *)
Definition passFlags (logged : list Loggable)
    (made : list (Loggable * list string)) (pass : Pass) : Prop :=
  (∀ l, impressionLoggedOf (passStates pass) l = true
        ↔ l ∈ logged ++ visibleLoggables pass)
  ∧ (∀ l, processedOf (passStates pass) l = true
          ↔ l ∈ (made ++ passInstalled pass).*1).

(** The flags say what was logged and installed. *)
Definition flagsTell (this : Driver) : Prop :=
  (∀ l, impressionLoggedOf (loggingStates this) l = true
        ↔ l ∈ concat (impressions this))
  ∧ (∀ l, processedOf (loggingStates this) l = true
          ↔ l ∈ (installed this).*1).

(** Every observer of the map is connected, and no other is. *)
Definition observersKept (this : Driver) : Prop :=
  observed this = mutationObservers this.

(** The throttler is set exactly while the driver is logging. *)
Definition throttlerSet (this : Driver) : Prop :=
  logging this = true ↔ is_Some (processingThrottler this).



(** Where a state is processed for debugging, [there] holds. *)
Definition debuggedOnly (there : Prop) (states : gmap Loggable LoggingState)
    : Prop :=
  ∀ l state, states !! l = Some state → processedForDebugging state = true →
    there.

(** The popover is there whenever something needs it. *)
Definition popoverThere (this : Driver) : Prop :=
  (veDebuggingEnabled this = true → debugPopover this = true)
  ∧ debuggedOnly (debugPopover this = true) (loggingStates this).

(** ** A page without loggable elements, and one with a visible element *)

Definition quietPage : Page := {|
  document := 1%positive;
  hidden := false;
  body := λ doc, doc;
  readyState := λ _, "complete";
  getDomState := λ _, {| loggables := []; shadowRoots := [] |};
  tagName := λ _, "DIV";
  getLoggingConfig := λ _, {| ve := 1; track := None |};
  visibleOverlap := λ _, None
|}.

Definition buttonPage : Page := {|
  document := 1%positive;
  hidden := false;
  body := λ doc, doc;
  readyState := λ _, "complete";
  getDomState := λ _,
    {| loggables := [ {| element := 3%positive; elementParent := None |} ];
       shadowRoots := [2%positive] |};
  tagName := λ _, "BUTTON";
  getLoggingConfig := λ _,
    {| ve := 1; track := Some {[ "click" := None ]} |};
  visibleOverlap := λ _, Some {| width := 10; height := 10 |}
|}.

(** ** The cached state of a loggable *)

Lemma getOrCreateLoggingState_spec states l c p :
  (getOrCreateLoggingState states l c p).1 !! l
    = Some (getOrCreateLoggingState states l c p).2
  ∧ (∀ l', l' ≠ l →
       (getOrCreateLoggingState states l c p).1 !! l' = states !! l')
  ∧ impressionLogged (getOrCreateLoggingState states l c p).2
    = impressionLoggedOf states l
  ∧ processed (getOrCreateLoggingState states l c p).2
    = processedOf states l.
Proof.
  unfold getOrCreateLoggingState, impressionLoggedOf, processedOf.
  destruct (states !! l) as [state|] eqn:Hstate; simpl.
  - by rewrite Hstate.
  - rewrite lookup_insert_eq. split; [done|]. split; [|done].
    intros l' Hl'. by rewrite lookup_insert_ne.
Qed.

(** What one round of the first loop does to the loggable [l]. *)
Lemma processElement_spec page debugging popover pass entry :
  ∃ (logs installs : bool) (events : list string),
    visibleLoggables (processElement page debugging popover pass entry)
      = visibleLoggables pass ++ (if logs then [element entry] else [])
    ∧ passInstalled (processElement page debugging popover pass entry)
      = passInstalled pass
        ++ (if installs then [(element entry, events)] else [])
    ∧ passRegistry (processElement page debugging popover pass entry)
      = passRegistry pass
    ∧ (∀ l, l ≠ element entry →
         passStates (processElement page debugging popover pass entry) !! l
         = passStates pass !! l)
    ∧ impressionLoggedOf
        (passStates (processElement page debugging popover pass entry))
        (element entry)
      = impressionLoggedOf (passStates pass) (element entry) || logs
    ∧ (logs = true →
       impressionLoggedOf (passStates pass) (element entry) = false)
    ∧ processedOf
        (passStates (processElement page debugging popover pass entry))
        (element entry) = true
    ∧ installs = negb (processedOf (passStates pass) (element entry)).
Proof.
  unfold processElement.
  destruct (getOrCreateLoggingState_spec (passStates pass) (element entry)
              (getLoggingConfig page (element entry)) (elementParent entry))
    as (Hown & Hother & Himp & Hproc).
  destruct (getOrCreateLoggingState _ _ _ _) as [states state]. simpl in *.
  set (logged :=
    if impressionLogged state then (state, [])
    else match visibleOverlap page (element entry) with
         | Some rect => (setImpressionLogged (setSize rect state),
                         [element entry])
         | None =>
             if bool_decide (tagName page (element entry) = "OPTION")
                && parentSelectOpen states state
             then (setImpressionLogged state, [element entry])
             else (state, [])
         end).
  assert (∃ logs : bool,
    logged.2 = (if logs then [element entry] else [])
    ∧ impressionLogged logged.1 = impressionLogged state || logs
    ∧ (logs = true → impressionLogged state = false)
    ∧ processed logged.1 = processed state) as (logs & Hvis & Hflag & Hfresh & Hp1).
  { unfold logged. destruct (impressionLogged state) eqn:Hi.
    - by exists false.
    - destruct (visibleOverlap page (element entry)).
      + by exists true.
      + destruct (_ && _); [by exists true|by exists false]. }
  destruct logged as [state1 visible]. simpl in *.
  exists logs, (negb (processed state1)),
    (listenersFor (config state1) (tagName page (element entry))).
  destruct (processed state1) eqn:Hp; simpl.
  all: destruct (debugging && negb _); simpl.
  all: repeat destruct (decide _); repeat destruct (_ && _); simpl.
  all: rewrite ?Hvis, ?app_nil_r.
  all: split; [done|]; split; [done|]; split; [done|].
  all: split; [intros l Hl; rewrite lookup_insert_ne by done; by apply Hother|].
  all: unfold impressionLoggedOf, processedOf in *.
  all: rewrite ?lookup_insert_eq; simpl.
  all: rewrite <- ?Himp, <- ?Hproc, <- ?Hp1, ?Hp, ?Hflag.
  all: done.
Qed.

Lemma processNonDomLoggable_spec pass entry :
  ∃ pushes : bool,
    visibleLoggables (processNonDomLoggable pass entry)
      = visibleLoggables pass ++ (if pushes then [loggable entry] else [])
    ∧ passInstalled (processNonDomLoggable pass entry) = passInstalled pass
    ∧ passRegistry (processNonDomLoggable pass entry)
      = (if pushes then unregisterLoggable (loggable entry) (passRegistry pass)
         else passRegistry pass)
    ∧ (∀ l, l ≠ loggable entry →
         passStates (processNonDomLoggable pass entry) !! l
         = passStates pass !! l)
    ∧ impressionLoggedOf (passStates (processNonDomLoggable pass entry))
        (loggable entry)
      = impressionLoggedOf (passStates pass) (loggable entry) || pushes
    ∧ processedOf (passStates (processNonDomLoggable pass entry))
        (loggable entry)
      = processedOf (passStates pass) (loggable entry).
Proof.
  unfold processNonDomLoggable.
  destruct (getOrCreateLoggingState_spec (passStates pass) (loggable entry)
              (loggableConfig entry) (loggableParent entry))
    as (Hown & Hother & Himp & Hproc).
  destruct (getOrCreateLoggingState _ _ _ _) as [states state]. simpl in *.
  destruct (negb _); simpl.
  - exists false. rewrite app_nil_r. repeat split; try done.
    + unfold impressionLoggedOf in *. rewrite Hown. simpl.
      by rewrite orb_false_r.
    + unfold processedOf in *. by rewrite Hown.
  - exists true. repeat split; try done.
    + intros l Hl. rewrite lookup_insert_ne by done. by apply Hother.
    + unfold impressionLoggedOf. rewrite lookup_insert_eq. simpl.
      by rewrite orb_true_r.
    + unfold processedOf in *. by rewrite lookup_insert_eq.
Qed.

(** ** The flags only go up *)

Lemma processElement_monotone page debugging popover pass entry l :
  (impressionLoggedOf (passStates pass) l = true →
   impressionLoggedOf
     (passStates (processElement page debugging popover pass entry)) l = true)
  ∧ (processedOf (passStates pass) l = true →
     processedOf
       (passStates (processElement page debugging popover pass entry)) l
     = true).
Proof.
  destruct (processElement_spec page debugging popover pass entry)
    as (logs & installs & events & _ & _ & _ & Hother & Himp & _ & Hproc & _).
  destruct (decide (l = element entry)) as [->|Hne].
  - rewrite Himp, Hproc. split; [by intros ->|done].
  - unfold impressionLoggedOf, processedOf. by rewrite Hother.
Qed.

Lemma processNonDomLoggable_monotone pass entry l :
  (impressionLoggedOf (passStates pass) l = true →
   impressionLoggedOf (passStates (processNonDomLoggable pass entry)) l = true)
  ∧ (processedOf (passStates pass) l = true →
     processedOf (passStates (processNonDomLoggable pass entry)) l = true).
Proof.
  destruct (processNonDomLoggable_spec pass entry)
    as (pushes & _ & _ & _ & Hother & Himp & Hproc).
  destruct (decide (l = loggable entry)) as [->|Hne].
  - rewrite Himp, Hproc. split; [by intros ->|done].
  - unfold impressionLoggedOf, processedOf. by rewrite Hother.
Qed.

Lemma foldl_monotone {E : Type} (step : Pass → E → Pass) l :
  (∀ pass entry,
     (impressionLoggedOf (passStates pass) l = true →
      impressionLoggedOf (passStates (step pass entry)) l = true)
     ∧ (processedOf (passStates pass) l = true →
        processedOf (passStates (step pass entry)) l = true)) →
  ∀ entries pass,
    (impressionLoggedOf (passStates pass) l = true →
     impressionLoggedOf (passStates (foldl step pass entries)) l = true)
    ∧ (processedOf (passStates pass) l = true →
       processedOf (passStates (foldl step pass entries)) l = true).
Proof.
  intros Hstep. induction entries as [|entry entries IH]; intros pass; [done|].
  simpl. destruct (Hstep pass entry) as [H1 H2].
  destruct (IH (step pass entry)) as [H3 H4]. split; eauto.
Qed.

Lemma process_monotone page this l :
  (impressionLoggedOf (loggingStates this) l = true →
   impressionLoggedOf (loggingStates (process page this)) l = true)
  ∧ (processedOf (loggingStates this) l = true →
     processedOf (loggingStates (process page this)) l = true).
Proof.
  unfold process. destruct (hidden page); [done|]. simpl.
  unfold processLoops.
  set (pass0 := {| passStates := loggingStates this;
                   passRegistry := registry this;
                   visibleLoggables := [];
                   passInstalled := [] |}).
  set (pass1 := foldl _ pass0 _).
  destruct (foldl_monotone
              (processElement page (veDebuggingEnabled this) (debugPopover this))
              l (λ pass entry, processElement_monotone page _ _ pass entry l)
              (loggables (getDomState page (documents this))) pass0)
    as [H1 H2].
  destruct (foldl_monotone processNonDomLoggable l
              (λ pass entry, processNonDomLoggable_monotone pass entry l)
              (passRegistry pass1) pass1) as [H3 H4].
  split; eauto.
Qed.

(** ** Counting *)

Lemma occurrences_app l xs ys :
  occurrences l (xs ++ ys) = occurrences l xs + occurrences l ys.
Proof. unfold occurrences. by rewrite filter_app, length_app. Qed.

Lemma occurrences_singleton l x :
  occurrences l [x] = if decide (x = l) then 1 else 0.
Proof.
  unfold occurrences. destruct (decide (x = l)).
  - by rewrite filter_cons_True.
  - by rewrite filter_cons_False.
Qed.

Lemma impressionsOf_snoc l batches batch :
  impressionsOf l (batches ++ [batch])
  = impressionsOf l batches + occurrences l batch.
Proof.
  unfold impressionsOf, occurrences.
  rewrite concat_app, filter_app, length_app. simpl. by rewrite app_nil_r.
Qed.

Lemma installationsOf_app l xs ys :
  installationsOf l (xs ++ ys) = installationsOf l xs + installationsOf l ys.
Proof. unfold installationsOf. by rewrite filter_app, length_app. Qed.

Lemma installationsOf_singleton l x events :
  installationsOf l [(x, events)] = if decide (x = l) then 1 else 0.
Proof.
  unfold installationsOf. destruct (decide (x = l)).
  - by rewrite filter_cons_True.
  - by rewrite filter_cons_False.
Qed.

Lemma registeredOf_absent l entries :
  l ∉ loggable <$> entries → registeredOf l entries = 0.
Proof.
  unfold registeredOf. induction entries as [|e entries IH]; [done|].
  rewrite fmap_cons. intros [Hne Hrest]%not_elem_of_cons.
  rewrite filter_cons_False by done. by apply IH.
Qed.

Lemma registeredOf_cons l e entries :
  registeredOf l (e :: entries)
  = (if decide (loggable e = l) then 1 else 0) + registeredOf l entries.
Proof.
  unfold registeredOf. destruct (decide (loggable e = l)).
  - by rewrite filter_cons_True.
  - by rewrite filter_cons_False.
Qed.

Lemma registeredOf_unregister l l' entries :
  registeredOf l (unregisterLoggable l' entries)
  = if decide (l = l') then 0 else registeredOf l entries.
Proof.
  unfold unregisterLoggable.
  induction entries as [|e entries IH]; [by destruct (decide _)|].
  destruct (decide (loggable e = l')) as [He|He].
  - rewrite filter_cons_False by (intros Hne; by apply Hne).
    rewrite IH, registeredOf_cons.
    destruct (decide (l = l')); [done|]. by rewrite decide_False by congruence.
  - rewrite filter_cons_True by done. rewrite !registeredOf_cons, IH.
    destruct (decide (l = l')) as [->|]; [|done].
    by rewrite decide_False.
Qed.

Lemma unregisterLoggable_NoDup l entries :
  NoDup (loggable <$> entries) →
  NoDup (loggable <$> unregisterLoggable l entries).
Proof.
  intros Hnodup. eapply sublist_NoDup; [exact Hnodup|].
  apply fmap_sublist. unfold unregisterLoggable. apply sublist_filter.
Qed.

Lemma registerLoggable_keys l c p entries :
  loggable <$> registerLoggable l c p entries
  = if decide (l ∈ loggable <$> entries) then loggable <$> entries
    else (loggable <$> entries) ++ [l].
Proof.
  unfold registerLoggable. destruct (decide _) as [Hin|Hin].
  - clear Hin. induction entries as [|e entries IH]; [done|].
    rewrite !fmap_cons, IH. f_equal. by destruct (decide _).
  - by rewrite fmap_app.
Qed.

Lemma registeredOf_keys l entries :
  registeredOf l entries = occurrences l (loggable <$> entries).
Proof.
  unfold registeredOf, occurrences.
  induction entries as [|e entries IH]; [done|]. rewrite fmap_cons.
  destruct (decide (loggable e = l)).
  - rewrite !filter_cons_True by done. simpl. by rewrite IH.
  - by rewrite !filter_cons_False by done.
Qed.

Lemma registeredOf_register l l' c p entries :
  registeredOf l (registerLoggable l' c p entries)
  ≤ registeredOf l entries + (if decide (l' = l) then 1 else 0).
Proof.
  rewrite !registeredOf_keys, registerLoggable_keys.
  destruct (decide (l' ∈ _)); [lia|].
  rewrite occurrences_app, occurrences_singleton. lia.
Qed.

Lemma registerLoggable_NoDup l c p entries :
  NoDup (loggable <$> entries) →
  NoDup (loggable <$> registerLoggable l c p entries).
Proof.
  rewrite registerLoggable_keys. destruct (decide _) as [|Hnew]; [done|].
  intros Hnodup. apply NoDup_app. split; [done|]. split.
  - intros x Hx ->%list_elem_of_singleton. done.
  - apply NoDup_singleton.
Qed.

(** ** What the loops keep *)

Lemma processElement_inv page debugging popover l i0 m0 r pass entry :
  passInv l i0 m0 r pass →
  passInv l i0 m0 r (processElement page debugging popover pass entry).
Proof.
  intros (Hi & Hm & Hnodup). unfold passInv.
  destruct (processElement_spec page debugging popover pass entry)
    as (logs & installs & events & -> & -> & -> & Hother & Himp & Hfresh
        & Hproc & ->).
  split; [|split; [|done]].
  - destruct (decide (l = element entry)) as [->|Hne].
    + rewrite Hproc, installationsOf_app.
      destruct (processedOf (passStates pass) (element entry)) eqn:Hp; simpl in *.
      * unfold installationsOf at 2. simpl. lia.
      * rewrite installationsOf_singleton, decide_True by done. simpl. lia.
    + unfold processedOf in *. rewrite Hother by done.
      rewrite installationsOf_app.
      destruct (negb _); [|unfold installationsOf at 2; simpl; lia].
      rewrite installationsOf_singleton, decide_False by done. lia.
  - destruct (decide (l = element entry)) as [->|Hne].
    + rewrite Himp, occurrences_app. destruct logs.
      * rewrite occurrences_singleton, decide_True by done.
        rewrite Hfresh in * by done. simpl in *. lia.
      * rewrite orb_false_r. unfold occurrences at 2. simpl. lia.
    + unfold impressionLoggedOf in *. rewrite Hother by done.
      rewrite occurrences_app.
      destruct logs; [|unfold occurrences at 2; simpl; lia].
      rewrite occurrences_singleton, decide_False by done. lia.
Qed.

Lemma processElements_inv page debugging popover l i0 m0 r entries :
  ∀ pass,
    passInv l i0 m0 r pass →
    passInv l i0 m0 r
      (foldl (processElement page debugging popover) pass entries).
Proof.
  induction entries as [|entry entries IH]; intros pass Hinv; [done|].
  simpl. by apply IH, processElement_inv.
Qed.

(** In the second loop the entries still to come are entries of the
    registry, each loggable at most once. *)
Lemma processNonDomLoggables_inv l i0 m0 r entries :
  ∀ pass,
    passInv l i0 m0 r pass →
    NoDup (loggable <$> entries) →
    registeredOf l entries ≤ registeredOf l (passRegistry pass) →
    passInv l i0 m0 r (foldl processNonDomLoggable pass entries).
Proof.
  induction entries as [|entry entries IH];
    intros pass (Hi & Hm & Hnodup) Hrest Hpaid; [done|].
  simpl. rewrite fmap_cons in Hrest.
  apply NoDup_cons in Hrest as [Hentry Hrest].
  rewrite registeredOf_cons in Hpaid.
  destruct (processNonDomLoggable_spec pass entry)
    as (pushes & Hvis & Hinst & Hreg & Hother & Himp & Hproc).
  apply IH; [|done|].
  - unfold passInv. rewrite Hvis, Hinst, Hreg. split; [|split].
    + destruct (decide (l = loggable entry)) as [->|Hne].
      * by rewrite Hproc.
      * unfold processedOf in *. by rewrite Hother.
    + destruct (decide (l = loggable entry)) as [->|Hne].
      * rewrite Himp, occurrences_app. destruct pushes.
        -- rewrite occurrences_singleton, decide_True by done.
           rewrite registeredOf_unregister, decide_True by done.
           rewrite decide_True in Hpaid by done. rewrite orb_true_r. simpl.
           destruct (impressionLoggedOf (passStates pass) (loggable entry));
             simpl in *; lia.
        -- rewrite orb_false_r. unfold occurrences at 2. simpl. lia.
      * unfold impressionLoggedOf in *. rewrite Hother by done.
        rewrite occurrences_app. destruct pushes.
        -- rewrite occurrences_singleton, decide_False by done.
           rewrite registeredOf_unregister, decide_False by done. lia.
        -- unfold occurrences at 2. simpl. lia.
    + destruct pushes; [by apply unregisterLoggable_NoDup|done].
  - rewrite Hreg. destruct pushes; [|lia].
    rewrite registeredOf_unregister.
    destruct (decide (l = loggable entry)) as [->|Hne]; [|lia].
    rewrite registeredOf_absent by done. lia.
Qed.

(** ** Observers leave the rest of the driver alone *)

Lemma sameButObservers_refl this : sameButObservers this this.
Proof. unfold sameButObservers. by destruct this. Qed.

Lemma sameButObservers_trans this1 this2 this3 :
  sameButObservers this1 this2 → sameButObservers this2 this3 →
  sameButObservers this1 this3.
Proof.
  unfold sameButObservers. intros H12 H23. rewrite H23 at 1.
  by rewrite H12 at 1.
Qed.

Lemma foldl_sameButObservers (step : Driver → positive → Driver) :
  (∀ this root, sameButObservers this (step this root)) →
  ∀ roots this, sameButObservers this (foldl step this roots).
Proof.
  intros Hstep. induction roots as [|root roots IH]; intros this.
  - apply sameButObservers_refl.
  - simpl. eapply sameButObservers_trans; [apply Hstep|apply IH].
Qed.

Lemma observeRoot_same this root : sameButObservers this (observeRoot this root).
Proof.
  unfold observeRoot. destruct (decide _); [apply sameButObservers_refl|done].
Qed.

Lemma disconnectRoot_same this root :
  sameButObservers this (disconnectRoot this root).
Proof. done. Qed.

Lemma observeMutations_same roots this :
  sameButObservers this (observeMutations roots this).
Proof. apply foldl_sameButObservers, observeRoot_same. Qed.

(** ** What every action keeps *)

Lemma driverInv_same l r this this' :
  sameButObservers this this' → driverInv l r this → driverInv l r this'.
Proof. intros ->. done. Qed.

Lemma driverInv_fields l r this this' :
  installed this' = installed this →
  impressions this' = impressions this →
  loggingStates this' = loggingStates this →
  registry this' = registry this →
  driverInv l r this → driverInv l r this'.
Proof. unfold driverInv. by intros -> -> -> ->. Qed.

Lemma process_inv l r page this :
  driverInv l r this → driverInv l r (process page this).
Proof.
  intros (Hi & Hm & Hnodup). unfold process.
  destruct (hidden page); [done|].
  pose proof (observeMutations_same
                (shadowRoots (getDomState page (documents this))) this) as Hsame.
  set (this1 := observeMutations _ this) in *.
  assert (installed this1 = installed this) as Hinst by (by rewrite Hsame).
  assert (impressions this1 = impressions this) as Himp by (by rewrite Hsame).
  unfold processLoops.
  set (pass0 := {| passStates := loggingStates this;
                   passRegistry := registry this;
                   visibleLoggables := [];
                   passInstalled := [] |}).
  assert (passInv l (installationsOf l (installed this))
            (impressionsOf l (impressions this)) r pass0) as Hpass0.
  { unfold passInv, pass0. simpl.
    unfold installationsOf at 2. unfold occurrences. simpl.
    split; [lia|]. split; [lia|done]. }
  apply (processElements_inv page (veDebuggingEnabled this)
           (debugPopover this) _ _ _ _
           (loggables (getDomState page (documents this)))) in Hpass0.
  set (pass1 := foldl _ pass0 _) in *.
  apply (processNonDomLoggables_inv _ _ _ _ (passRegistry pass1)) in Hpass0
    as (Hi2 & Hm2 & Hnodup2); [|apply Hpass0|done].
  unfold driverInv. simpl.
  rewrite Hinst, Himp, installationsOf_app, impressionsOf_snoc.
  split; [done|]. split; [lia|done].
Qed.

Lemma addDocument_inv l r page doc this :
  driverInv l r this → driverInv l r (addDocument page doc this).
Proof.
  intros Hinv. unfold addDocument.
  eapply driverInv_same; [apply observeMutations_same|].
  eapply driverInv_fields; [simpl; reflexivity..|].
  destruct (decide _); [|done].
  apply process_inv. revert Hinv. by apply driverInv_fields.
Qed.

Lemma run_inv l r this action :
  driverInv l r this →
  driverInv l (r + Nat.b2n (registers l action)) (run this action).
Proof.
  intros Hinv.
  assert (∀ this', driverInv l r this' →
            driverInv l (r + Nat.b2n (registers l action)) this') as Hweaken.
  { intros this' (Hi & Hm & Hnodup). split; [done|]. split; [lia|done]. }
  destruct action as [page options|page doc|page| |page|el|l' c p|enabled]; simpl.
  - apply Hweaken. unfold startLogging. by apply addDocument_inv.
  - by apply Hweaken, addDocument_inv.
  - apply Hweaken. destruct Hinv as (Hi & Hm & Hnodup). unfold stopLogging.
    set (bodiesDone := foldl disconnectRoot (stopListening this) _).
    set (rootsDone := foldl disconnectRoot bodiesDone _).
    assert (sameButObservers (stopListening this) rootsDone) as Hsame.
    { eapply sameButObservers_trans;
        apply foldl_sameButObservers, disconnectRoot_same. }
    unfold driverInv, forgetDocuments. simpl. rewrite Hsame. simpl.
    split; [done|]. split; [|apply NoDup_nil_2].
    unfold registeredOf. simpl. lia.
  - apply Hweaken. unfold scheduleProcessing.
    by destruct (processingThrottler this).
  - by apply Hweaken, process_inv.
  - apply Hweaken. unfold onSelectOpen.
    destruct (loggingStates this !! el) as [state|] eqn:Hstate; [|done].
    destruct (selectOpen state); [done|].
    destruct Hinv as (Hi & Hm & Hnodup).
    assert (∀ states',
      states' = <[el := setSelectOpen state]> (loggingStates this) →
      processedOf states' l = processedOf (loggingStates this) l
      ∧ impressionLoggedOf states' l
        = impressionLoggedOf (loggingStates this) l) as Hflags.
    { intros states' ->. unfold processedOf, impressionLoggedOf.
      destruct (decide (l = el)) as [->|Hne].
      - by rewrite lookup_insert_eq, Hstate.
      - by rewrite lookup_insert_ne. }
    destruct (Hflags _ eq_refl) as [Hp Himp].
    unfold scheduleProcessing, driverInv. simpl.
    destruct (processingThrottler this); simpl; by rewrite Hp, Himp.
  - destruct Hinv as (Hi & Hm & Hnodup). unfold driverInv, register. simpl.
    split; [done|]. split; [|by apply registerLoggable_NoDup].
    pose proof (registeredOf_register l l' c p (registry this)) as Hreg.
    destruct (decide (l' = l)) as [->|Hne].
    + rewrite bool_decide_eq_true_2 by done. simpl. lia.
    + rewrite bool_decide_eq_false_2 by done. simpl. lia.
  - by apply Hweaken.
Qed.

Lemma registrationsOf_cons l action actions :
  registrationsOf l (action :: actions)
  = Nat.b2n (registers l action) + registrationsOf l actions.
Proof.
  unfold registrationsOf. destruct (registers l action) eqn:Hr.
  - by rewrite filter_cons_True.
  - by rewrite filter_cons_False by (by rewrite Hr).
Qed.

Lemma foldl_run_inv l actions :
  ∀ r this,
    driverInv l r this →
    driverInv l (r + registrationsOf l actions) (foldl run this actions).
Proof.
  induction actions as [|action actions IH]; intros r this Hinv; simpl.
  - unfold registrationsOf. simpl. by rewrite Nat.add_0_r.
  - rewrite registrationsOf_cons, Nat.add_assoc. by apply IH, run_inv.
Qed.

Lemma initial_inv l : driverInv l 0 initial.
Proof.
  unfold driverInv, initial, installationsOf, impressionsOf, registeredOf.
  simpl. split; [lia|]. split; [lia|apply NoDup_nil_2].
Qed.

(** ** No action resets a flag *)

Lemma addDocument_monotone page doc this l :
  (impressionLoggedOf (loggingStates this) l = true →
   impressionLoggedOf (loggingStates (addDocument page doc this)) l = true)
  ∧ (processedOf (loggingStates this) l = true →
     processedOf (loggingStates (addDocument page doc this)) l = true).
Proof.
  unfold addDocument.
  match goal with
  | |- context [observeMutations ?roots ?s] =>
      pose proof (observeMutations_same roots s) as Hsame;
      set (final := observeMutations roots s) in *
  end.
  rewrite Hsame. simpl. destruct (decide _); [|done].
  match goal with
  | |- context [process page ?s] => apply (process_monotone page s l)
  end.
Qed.

Lemma run_monotone this action l :
  (impressionLoggedOf (loggingStates this) l = true →
   impressionLoggedOf (loggingStates (run this action)) l = true)
  ∧ (processedOf (loggingStates this) l = true →
     processedOf (loggingStates (run this action)) l = true).
Proof.
  destruct action as [page options|page doc|page| |page|el|l' c p|enabled]; simpl.
  - unfold startLogging.
    match goal with
    | |- context [addDocument page ?doc ?s] =>
        apply (addDocument_monotone page doc s l)
    end.
  - apply addDocument_monotone.
  - unfold stopLogging.
    set (bodiesDone := foldl disconnectRoot (stopListening this) _).
    set (rootsDone := foldl disconnectRoot bodiesDone _).
    assert (sameButObservers (stopListening this) rootsDone) as Hsame.
    { eapply sameButObservers_trans;
        apply foldl_sameButObservers, disconnectRoot_same. }
    unfold forgetDocuments. simpl. by rewrite Hsame.
  - unfold scheduleProcessing. by destruct (processingThrottler this).
  - apply process_monotone.
  - unfold onSelectOpen.
    destruct (loggingStates this !! el) as [state|] eqn:Hstate; [|done].
    destruct (selectOpen state); [done|].
    unfold scheduleProcessing. simpl.
    assert (impressionLoggedOf
              (<[el := setSelectOpen state]> (loggingStates this)) l
            = impressionLoggedOf (loggingStates this) l
            ∧ processedOf (<[el := setSelectOpen state]> (loggingStates this)) l
              = processedOf (loggingStates this) l) as [Himp Hproc].
    { unfold impressionLoggedOf, processedOf.
      destruct (decide (l = el)) as [->|Hne].
      - by rewrite lookup_insert_eq, Hstate.
      - by rewrite lookup_insert_ne. }
    destruct (processingThrottler this); simpl; by rewrite Himp, Hproc.
  - done.
  - done.
Qed.

Lemma foldl_run_monotone actions l :
  ∀ this,
    (impressionLoggedOf (loggingStates this) l = true →
     impressionLoggedOf (loggingStates (foldl run this actions)) l = true)
    ∧ (processedOf (loggingStates this) l = true →
       processedOf (loggingStates (foldl run this actions)) l = true).
Proof.
  induction actions as [|action actions IH]; intros this; [done|].
  simpl. destruct (run_monotone this action l) as [H1 H2].
  destruct (IH (run this action)) as [H3 H4]. split; eauto.
Qed.

(** ** Disconnecting observers *)

Lemma disconnectRoots_observers roots :
  ∀ this,
    mutationObservers (foldl disconnectRoot this roots)
      = mutationObservers this ∖ list_to_set roots
    ∧ observed (foldl disconnectRoot this roots)
      = observed this ∖ (list_to_set roots ∩ mutationObservers this).
Proof.
  induction roots as [|root roots IH]; intros this; simpl.
  - split; set_solver.
  - destruct (IH (disconnectRoot this root)) as [-> ->]. simpl.
    destruct (decide (root ∈ mutationObservers this)); split; set_solver.
Qed.

Lemma scheduleProcessing_stopped this :
  processingThrottler this = None → scheduleProcessing this = this.
Proof. unfold scheduleProcessing. by intros ->. Qed.

(** ** The claims *)

(** C7, as amended.  [process] never resets [impressionLogged] or
    [processed]: a flag that is true before a run is true after it, and
    stays true whatever the driver does later.  So,
    whatever happens to a driver from its start, the listeners of a loggable
    are installed at most once, and a loggable is handed to [logImpressions]
    at most once through the elements of the page; a loggable without an
    element is handed over again for every registration, as its loop does
    not look at [impressionLogged] and unregisters the loggable instead. *)
Theorem process_flags_monotone (l : Loggable) (actions : list Action) :
  (∀ page this,
     (impressionLoggedOf (loggingStates this) l = true →
      impressionLoggedOf (loggingStates (process page this)) l = true)
     ∧ (processedOf (loggingStates this) l = true →
        processedOf (loggingStates (process page this)) l = true))
  ∧ (∀ this later,
       (impressionLoggedOf (loggingStates this) l = true →
        impressionLoggedOf (loggingStates (foldl run this later)) l = true)
       ∧ (processedOf (loggingStates this) l = true →
          processedOf (loggingStates (foldl run this later)) l = true))
  ∧ installationsOf l (installed (runAll actions)) ≤ 1
  ∧ impressionsOf l (impressions (runAll actions))
    ≤ 1 + registrationsOf l actions.
Proof.
  split; [intros page this; apply process_monotone|].
  split; [intros this later; apply foldl_run_monotone|].
  destruct (foldl_run_inv l actions 0 initial (initial_inv l))
    as (Hi & Hm & _).
  fold (runAll actions) in Hi, Hm.
  split.
  - destruct (processedOf _ l); simpl in Hi; lia.
  - destruct (impressionLoggedOf _ l); simpl in Hm; lia.
Qed.

(** C10.  Before any [startLogging] and after [stopLogging],
    [scheduleProcessing] does nothing, as it does whenever
    [processingThrottler] is null: [stopLogging] sets [processingThrottler]
    to null, empties [documents], and disconnects and deletes the observer
    of every document's body and of every shadow root, and any number of
    calls of [scheduleProcessing] after it leave the driver as it is. *)
Theorem scheduleProcessing_noop_when_stopped :
  scheduleProcessing initial = initial
  ∧ (∀ this, processingThrottler this = None → scheduleProcessing this = this)
  ∧ ∀ page this,
      processingThrottler (stopLogging page this) = None
      ∧ documents (stopLogging page this) = []
      ∧ (∀ root,
           root ∈ (body page <$> documents this)
                  ++ shadowRoots (getDomState page (documents this)) →
           (root ∉ mutationObservers (stopLogging page this))
           ∧ (root ∈ mutationObservers this →
              root ∉ observed (stopLogging page this)))
      ∧ ∀ calls,
          Nat.iter calls scheduleProcessing (stopLogging page this)
          = stopLogging page this.
Proof.
  split; [done|]. split; [apply scheduleProcessing_stopped|].
  intros page this. split; [done|]. split; [done|]. split.
  - intros root Hroot. unfold stopLogging, forgetDocuments. simpl.
    destruct (disconnectRoots_observers
                (shadowRoots (getDomState page (documents this)))
                (foldl disconnectRoot (stopListening this)
                   (body page <$> documents this))) as [-> ->].
    destruct (disconnectRoots_observers (body page <$> documents this)
                (stopListening this)) as [-> ->].
    simpl. apply elem_of_app in Hroot. set_solver.
  - induction calls as [|calls IH]; [done|].
    simpl. rewrite IH. by apply scheduleProcessing_stopped.
Qed.

(** ** On the sample pages *)

(** An element is logged by the first run and not again by the second. *)
Example button_logged_once :
  impressions (runAll [Process buttonPage; Process buttonPage])
    = [[3%positive]; []]
  ∧ installed (runAll [Process buttonPage; Process buttonPage])
    = [(3%positive, ["click"])].
Proof. vm_compute. done. Qed.

(** C7, as first stated, fails for a loggable without an element: it is
    registered, logged by a run of [process] (which sets [impressionLogged]
    and unregisters it), registered again and logged again by the next
    run. *)
Lemma registered_again_logged_again :
  impressionLoggedOf
    (loggingStates
       (runAll [Register 7%positive {| ve := 1; track := None |} None;
                Process quietPage])) 7%positive = true
  ∧ impressions
      (runAll [Register 7%positive {| ve := 1; track := None |} None;
               Process quietPage;
               Register 7%positive {| ve := 1; track := None |} None;
               Process quietPage])
    = [[7%positive]; [7%positive]]
  ∧ impressionsOf 7%positive
      (impressions
         (runAll [Register 7%positive {| ve := 1; track := None |} None;
                  Process quietPage;
                  Register 7%positive {| ve := 1; track := None |} None;
                  Process quietPage]))
    = 2.
Proof. vm_compute. done. Qed.

(** After [startLogging] a call of [scheduleProcessing] does schedule, and
    after [stopLogging] it does not. *)
Example scheduleProcessing_started_stopped :
  scheduled (scheduleProcessing (startLogging buttonPage None initial)) = 1
  ∧ scheduled
      (scheduleProcessing
         (stopLogging buttonPage (startLogging buttonPage None initial)))
    = 0
  ∧ mutationObservers
      (stopLogging buttonPage (startLogging buttonPage None initial)) = ∅.
Proof. vm_compute. done. Qed.

(** ** What holds of every driver *)

Lemma runAll_keeps (P : Driver → Prop) :
  P initial → (∀ this action, P this → P (run this action)) →
  ∀ actions, P (runAll actions).
Proof.
  intros Hinitial Hstep actions. unfold runAll.
  generalize initial Hinitial. induction actions as [|action actions IH];
    intros this Hthis; [done|].
  simpl. by apply IH, Hstep.
Qed.

Lemma processElement_flags page debugging popover logged made pass entry :
  passFlags logged made pass →
  passFlags logged made (processElement page debugging popover pass entry).
Proof.
  intros [Hlogged Hmade].
  destruct (processElement_spec page debugging popover pass entry)
    as (logs & installs & events & Hvis & Hinst & _ & Hother & Himp & _
        & Hproc & ->).
  split; intros l.
  - rewrite Hvis, app_assoc, elem_of_app, <- Hlogged.
    destruct (decide (l = element entry)) as [->|Hne].
    + rewrite Himp. destruct logs.
      * rewrite orb_true_r. set_solver.
      * rewrite orb_false_r. set_solver.
    + unfold impressionLoggedOf. rewrite Hother by done.
      destruct logs; set_solver.
  - rewrite Hinst, app_assoc, fmap_app, elem_of_app, <- Hmade.
    destruct (decide (l = element entry)) as [->|Hne].
    + rewrite Hproc.
      destruct (processedOf (passStates pass) (element entry)); simpl.
      * set_solver.
      * split; [intros _; right; set_solver|done].
    + unfold processedOf. rewrite Hother by done.
      destruct (negb _); set_solver.
Qed.

Lemma processNonDomLoggable_flags logged made pass entry :
  passFlags logged made pass →
  passFlags logged made (processNonDomLoggable pass entry).
Proof.
  intros [Hlogged Hmade].
  destruct (processNonDomLoggable_spec pass entry)
    as (pushes & Hvis & Hinst & _ & Hother & Himp & Hproc).
  split; intros l.
  - rewrite Hvis, app_assoc, elem_of_app, <- Hlogged.
    destruct (decide (l = loggable entry)) as [->|Hne].
    + rewrite Himp. destruct pushes.
      * rewrite orb_true_r. set_solver.
      * rewrite orb_false_r. set_solver.
    + unfold impressionLoggedOf. rewrite Hother by done.
      destruct pushes; set_solver.
  - rewrite Hinst, <- Hmade.
    destruct (decide (l = loggable entry)) as [->|Hne].
    + by rewrite Hproc.
    + unfold processedOf. by rewrite Hother.
Qed.

Lemma foldl_passFlags {E : Type} (step : Pass → E → Pass) logged made :
  (∀ pass entry, passFlags logged made pass →
                 passFlags logged made (step pass entry)) →
  ∀ entries pass,
    passFlags logged made pass → passFlags logged made (foldl step pass entries).
Proof.
  intros Hstep. induction entries as [|entry entries IH]; intros pass Hpass;
    [done|].
  simpl. by apply IH, Hstep.
Qed.

Lemma flagsTell_fields this this' :
  installed this' = installed this →
  impressions this' = impressions this →
  loggingStates this' = loggingStates this →
  flagsTell this → flagsTell this'.
Proof. unfold flagsTell. by intros -> -> ->. Qed.

Lemma process_flagsTell page this :
  flagsTell this → flagsTell (process page this).
Proof.
  intros [Hlogged Hmade]. unfold process.
  destruct (hidden page); [done|].
  pose proof (observeMutations_same
                (shadowRoots (getDomState page (documents this))) this) as Hsame.
  set (this1 := observeMutations _ this) in *.
  assert (installed this1 = installed this) as Hinst by (by rewrite Hsame).
  assert (impressions this1 = impressions this) as Himp by (by rewrite Hsame).
  unfold processLoops.
  set (pass0 := {| passStates := loggingStates this;
                   passRegistry := registry this;
                   visibleLoggables := [];
                   passInstalled := [] |}).
  assert (passFlags (concat (impressions this)) (installed this) pass0)
    as Hpass0.
  { split; intros l; simpl; rewrite app_nil_r; [apply Hlogged|apply Hmade]. }
  apply (foldl_passFlags _ _ _
           (processElement_flags page (veDebuggingEnabled this)
              (debugPopover this) _ _)
           (loggables (getDomState page (documents this)))) in Hpass0.
  set (pass1 := foldl _ pass0 _) in *.
  apply (foldl_passFlags _ _ _ (processNonDomLoggable_flags _ _)
           (passRegistry pass1)) in Hpass0 as [Hlogged2 Hmade2].
  split; intros l; simpl.
  - rewrite Himp, concat_app. simpl. rewrite app_nil_r. apply Hlogged2.
  - rewrite Hinst. apply Hmade2.
Qed.

Lemma addDocument_flagsTell page doc this :
  flagsTell this → flagsTell (addDocument page doc this).
Proof.
  intros Hinv. unfold addDocument.
  match goal with
  | |- flagsTell (observeMutations ?roots ?s) =>
      pose proof (observeMutations_same roots s) as Hsame;
      apply (flagsTell_fields s); [by rewrite Hsame..|]
  end.
  eapply flagsTell_fields; [simpl; reflexivity..|].
  destruct (decide _); [|done].
  apply process_flagsTell. revert Hinv. by apply flagsTell_fields.
Qed.

Lemma stopLogging_same page this :
  sameButObservers (stopListening this)
    (foldl disconnectRoot
       (foldl disconnectRoot (stopListening this)
          (body page <$> documents this))
       (shadowRoots (getDomState page (documents this)))).
Proof.
  eapply sameButObservers_trans;
    apply foldl_sameButObservers, disconnectRoot_same.
Qed.

Lemma insert_selectOpen_flags states el state l :
  states !! el = Some state →
  impressionLoggedOf (<[el := setSelectOpen state]> states) l
    = impressionLoggedOf states l
  ∧ processedOf (<[el := setSelectOpen state]> states) l
    = processedOf states l.
Proof.
  intros Hstate. unfold impressionLoggedOf, processedOf.
  destruct (decide (l = el)) as [->|Hne].
  - by rewrite lookup_insert_eq, Hstate.
  - by rewrite lookup_insert_ne.
Qed.

Lemma run_flagsTell this action : flagsTell this → flagsTell (run this action).
Proof.
  intros Hinv.
  destruct action as [page options|page doc|page| |page|el|l' c p|enabled]; simpl.
  - unfold startLogging. apply addDocument_flagsTell.
    revert Hinv. by apply flagsTell_fields.
  - by apply addDocument_flagsTell.
  - unfold stopLogging. pose proof (stopLogging_same page this) as Hsame.
    revert Hinv. apply flagsTell_fields; unfold forgetDocuments; simpl;
      by rewrite Hsame.
  - unfold scheduleProcessing. by destruct (processingThrottler this).
  - by apply process_flagsTell.
  - unfold onSelectOpen.
    destruct (loggingStates this !! el) as [state|] eqn:Hstate; [|done].
    destruct (selectOpen state); [done|].
    destruct Hinv as [Hlogged Hmade].
    unfold scheduleProcessing, flagsTell. simpl.
    destruct (processingThrottler this); simpl; split; intros l.
    all: destruct (insert_selectOpen_flags (loggingStates this) el state l
                     Hstate) as [Himp Hproc]; rewrite ?Himp, ?Hproc; done.
  - done.
  - done.
Qed.

Lemma initial_flagsTell : flagsTell initial.
Proof.
  split; intros l; unfold impressionLoggedOf, processedOf; simpl;
    rewrite lookup_empty; simpl; set_solver.
Qed.

(** X7.  In every driver [impressionLogged] is true for exactly the
    loggables that have been handed to [logImpressions]: nothing is flagged
    without being reported, and nothing is reported without being
    flagged. *)
Theorem impressionLogged_iff_logged (actions : list Action) (l : Loggable) :
  impressionLoggedOf (loggingStates (runAll actions)) l = true
  ↔ l ∈ concat (impressions (runAll actions)).
Proof.
  apply (runAll_keeps flagsTell initial_flagsTell run_flagsTell actions).
Qed.

(** X8.  In every driver [processed] is true for exactly the loggables whose
    listeners [process] has installed. *)
Theorem processed_iff_installed (actions : list Action) (l : Loggable) :
  processedOf (loggingStates (runAll actions)) l = true
  ↔ l ∈ (installed (runAll actions)).*1.
Proof.
  apply (runAll_keeps flagsTell initial_flagsTell run_flagsTell actions).
Qed.

(** ** What a run of [process] covers *)

Lemma processElement_overlap page debugging popover pass entry :
  is_Some (visibleOverlap page (element entry)) →
  impressionLoggedOf
    (passStates (processElement page debugging popover pass entry))
    (element entry) = true.
Proof.
  intros [rect Hrect]. unfold processElement.
  destruct (getOrCreateLoggingState _ _ _ _) as [states state].
  rewrite Hrect. unfold impressionLoggedOf.
  destruct (impressionLogged state) eqn:Hflag; simpl.
  all: destruct (processed _); simpl.
  all: destruct (debugging && negb _); simpl.
  all: repeat destruct (decide _); repeat destruct (_ && _); simpl.
  all: by rewrite lookup_insert_eq.
Qed.

Lemma processElements_cover page debugging popover entries :
  ∀ pass entry,
    entry ∈ entries →
    processedOf
      (passStates (foldl (processElement page debugging popover) pass entries))
      (element entry) = true
    ∧ (is_Some (visibleOverlap page (element entry)) →
       impressionLoggedOf
         (passStates
            (foldl (processElement page debugging popover) pass entries))
         (element entry) = true).
Proof.
  induction entries as [|first entries IH]; intros pass entry Hentry.
  - by apply elem_of_nil in Hentry.
  - simpl. apply elem_of_cons in Hentry as [->|Hentry]; [|by apply IH].
    destruct (foldl_monotone (processElement page debugging popover)
                (element first)
                (λ pass entry,
                   processElement_monotone page debugging popover pass entry
                     (element first))
                entries (processElement page debugging popover pass first))
      as [Himp Hproc].
    split.
    + apply Hproc.
      by destruct (processElement_spec page debugging popover pass first)
        as (? & ? & ? & _ & _ & _ & _ & _ & _ & Hdone & _).
    + intros Hvisible. by apply Himp, processElement_overlap.
Qed.

(** X9.  A run of [process] on a page that is not hidden leaves no loggable
    element out: every element that [getDomState] lists is processed (its
    listeners are installed), and every one of them that overlaps the
    viewport has its impression logged. *)
Theorem process_covers_loggables page this entry :
  hidden page = false →
  entry ∈ loggables (getDomState page (documents this)) →
  processedOf (loggingStates (process page this)) (element entry) = true
  ∧ (is_Some (visibleOverlap page (element entry)) →
     impressionLoggedOf (loggingStates (process page this)) (element entry)
     = true).
Proof.
  intros Hvisible Hentry. unfold process. rewrite Hvisible. simpl.
  unfold processLoops.
  set (pass0 := {| passStates := loggingStates this;
                   passRegistry := registry this;
                   visibleLoggables := [];
                   passInstalled := [] |}).
  destruct (processElements_cover page (veDebuggingEnabled this)
              (debugPopover this) _ pass0 entry Hentry) as [Hproc Himp].
  set (pass1 := foldl _ pass0 _) in *.
  destruct (foldl_monotone processNonDomLoggable (element entry)
              (λ pass e, processNonDomLoggable_monotone pass e (element entry))
              (passRegistry pass1) pass1) as [Himp2 Hproc2].
  split; [by apply Hproc2|]. intros Hoverlap. by apply Himp2, Himp.
Qed.

(** X9 on the page with one button. *)
Lemma process_covers_loggables_button :
  processedOf (loggingStates (process buttonPage initial)) 3%positive = true
  ∧ impressionLoggedOf (loggingStates (process buttonPage initial)) 3%positive
    = true.
Proof.
  destruct (process_covers_loggables buttonPage initial
              {| element := 3%positive; elementParent := None |})
    as [Hprocessed Hlogged]; [reflexivity|apply list_elem_of_here|].
  split; [exact Hprocessed|]. apply Hlogged. simpl. eauto.
Defined.

Lemma scheduleProcessing_fields this :
  logging (scheduleProcessing this) = logging this
  ∧ processingThrottler (scheduleProcessing this) = processingThrottler this
  ∧ documents (scheduleProcessing this) = documents this
  ∧ documentListeners (scheduleProcessing this) = documentListeners this
  ∧ observed (scheduleProcessing this) = observed this
  ∧ mutationObservers (scheduleProcessing this) = mutationObservers this.
Proof.
  unfold scheduleProcessing.
  by destruct (processingThrottler this) eqn:Hthrottler; simpl; repeat split.
Qed.

(** ** Observers *)

Lemma observeMutations_observers roots :
  ∀ this,
    mutationObservers (observeMutations roots this)
      = mutationObservers this ∪ list_to_set roots
    ∧ observed (observeMutations roots this)
      = observed this ∪ (list_to_set roots ∖ mutationObservers this).
Proof.
  unfold observeMutations.
  induction roots as [|root roots IH]; intros this; simpl.
  - split; set_solver.
  - destruct (IH (observeRoot this root)) as [-> ->]. unfold observeRoot.
    destruct (decide (root ∈ mutationObservers this)); simpl.
    + split; set_solver.
    + split; [set_solver|]. apply set_eq. intros x.
      destruct (decide (x = root)); set_solver.
Qed.

Lemma observeMutations_kept roots this :
  observersKept this → observersKept (observeMutations roots this).
Proof.
  unfold observersKept. intros Hkept.
  destruct (observeMutations_observers roots this) as [-> ->].
  rewrite Hkept. apply set_eq. intros x.
  destruct (decide (x ∈ mutationObservers this)); set_solver.
Qed.

Lemma disconnectRoots_kept roots this :
  observersKept this → observersKept (foldl disconnectRoot this roots).
Proof.
  unfold observersKept. intros Hkept.
  destruct (disconnectRoots_observers roots this) as [-> ->].
  rewrite Hkept. set_solver.
Qed.

Lemma observersKept_fields this this' :
  observed this' = observed this →
  mutationObservers this' = mutationObservers this →
  observersKept this → observersKept this'.
Proof. unfold observersKept. by intros -> ->. Qed.

Lemma process_observers page this :
  hidden page = false →
  mutationObservers (process page this)
    = mutationObservers this
      ∪ list_to_set (shadowRoots (getDomState page (documents this)))
  ∧ observed (process page this)
    = observed this
      ∪ (list_to_set (shadowRoots (getDomState page (documents this)))
         ∖ mutationObservers this).
Proof.
  intros Hvisible. unfold process. rewrite Hvisible. simpl.
  apply observeMutations_observers.
Qed.

Lemma process_kept page this :
  observersKept this → observersKept (process page this).
Proof.
  intros Hkept. unfold process. destruct (hidden page); [done|].
  eapply observersKept_fields; [simpl; reflexivity..|].
  by apply observeMutations_kept.
Qed.

Lemma addDocument_kept page doc this :
  observersKept this → observersKept (addDocument page doc this).
Proof.
  intros Hkept. unfold addDocument. apply observeMutations_kept.
  eapply observersKept_fields; [simpl; reflexivity..|].
  destruct (decide _); [|done].
  apply process_kept. revert Hkept. by apply observersKept_fields.
Qed.

Lemma run_kept this action : observersKept this → observersKept (run this action).
Proof.
  intros Hkept.
  destruct action as [page options|page doc|page| |page|el|l' c p|enabled]; simpl.
  - unfold startLogging. apply addDocument_kept.
    revert Hkept. by apply observersKept_fields.
  - by apply addDocument_kept.
  - unfold stopLogging, forgetDocuments.
    eapply observersKept_fields; [simpl; reflexivity..|].
    do 2 apply disconnectRoots_kept. done.
  - destruct (scheduleProcessing_fields this) as (_ & _ & _ & _ & H1 & H2).
    revert Hkept. by apply observersKept_fields.
  - by apply process_kept.
  - unfold onSelectOpen.
    destruct (loggingStates this !! el) as [state|]; [|done].
    destruct (selectOpen state); [done|].
    match goal with
    | |- context [scheduleProcessing ?s] =>
        destruct (scheduleProcessing_fields s) as (_ & _ & _ & _ & H1 & H2)
    end.
    revert Hkept. apply observersKept_fields; [by rewrite H1|by rewrite H2].
  - done.
  - done.
Qed.

(** X10.  In every driver the roots under observation are exactly the keys
    of [mutationObservers]: a root never has a second observer, and
    [stopLogging] finds every connected observer in the map. *)
Theorem observed_iff_kept (actions : list Action) :
  observed (runAll actions) = mutationObservers (runAll actions).
Proof. by apply (runAll_keeps observersKept); [|apply run_kept]. Qed.

(** X11.  After a run of [process] on a page that is not hidden every shadow
    root that [getDomState] lists has an observer, and the observers there
    were before are still there. *)
Theorem process_observes_shadowRoots page this root :
  hidden page = false →
  (root ∈ shadowRoots (getDomState page (documents this)) →
   root ∈ mutationObservers (process page this))
  ∧ (root ∈ mutationObservers this →
     root ∈ mutationObservers (process page this))
  ∧ (root ∈ observed this → root ∈ observed (process page this)).
Proof.
  intros Hvisible.
  destruct (process_observers page this Hvisible) as [-> ->]. set_solver.
Qed.

(** X11 on the page with one button, whose shadow root is [2]. *)
Lemma process_observes_shadowRoots_button :
  hidden buttonPage = false
  ∧ 2%positive ∈ mutationObservers (process buttonPage initial).
Proof.
  split; [reflexivity|].
  destruct (process_observes_shadowRoots buttonPage initial 2%positive)
    as [Hroot _]; [reflexivity|].
  apply Hroot, list_elem_of_here.
Defined.

(** ** Logging and the throttler *)

Lemma throttlerSet_fields this this' :
  logging this' = logging this →
  processingThrottler this' = processingThrottler this →
  throttlerSet this → throttlerSet this'.
Proof. unfold throttlerSet. by intros -> ->. Qed.

Lemma process_same_module page this :
  logging (process page this) = logging this
  ∧ processingThrottler (process page this) = processingThrottler this
  ∧ documents (process page this) = documents this
  ∧ documentListeners (process page this) = documentListeners this
  ∧ scheduled (process page this) = scheduled this.
Proof.
  unfold process. destruct (hidden page); [done|]. simpl.
  pose proof (observeMutations_same
                (shadowRoots (getDomState page (documents this))) this) as ->.
  done.
Qed.

Lemma addDocument_same_module page doc this :
  logging (addDocument page doc this) = logging this
  ∧ processingThrottler (addDocument page doc this) = processingThrottler this
  ∧ documents (addDocument page doc this) = documents this ++ [doc]
  ∧ documentListeners (addDocument page doc this)
    = {[ (doc, "visibilitychange"); (doc, "scroll") ]} ∪ documentListeners this
  ∧ scheduled (addDocument page doc this) = scheduled this.
Proof.
  unfold addDocument.
  match goal with
  | |- context [observeMutations ?roots ?s] =>
      pose proof (observeMutations_same roots s) as ->
  end.
  simpl. destruct (decide _); [|done].
  match goal with
  | |- context [process page ?s] =>
      destruct (process_same_module page s) as (-> & -> & -> & -> & ->)
  end.
  done.
Qed.

Lemma stopLogging_module page this :
  logging (stopLogging page this) = false
  ∧ processingThrottler (stopLogging page this) = None
  ∧ documents (stopLogging page this) = []
  ∧ documentListeners (stopLogging page this)
    = documentListeners this
      ∖ list_to_set
          (doc ← documents this; [(doc, "visibilitychange"); (doc, "scroll")])
  ∧ registry (stopLogging page this) = [].
Proof.
  unfold stopLogging, forgetDocuments. simpl.
  pose proof (stopLogging_same page this) as ->. done.
Qed.

Lemma run_throttlerSet this action :
  throttlerSet this → throttlerSet (run this action).
Proof.
  intros Hset.
  destruct action as [page options|page doc|page| |page|el|l' c p|enabled]; simpl.
  - unfold startLogging, throttlerSet.
    match goal with
    | |- context [addDocument page ?doc ?s] =>
        destruct (addDocument_same_module page doc s) as (-> & -> & _)
    end.
    simpl. split; eauto.
  - destruct (addDocument_same_module page doc this) as (H1 & H2 & _).
    revert Hset. by apply throttlerSet_fields.
  - unfold throttlerSet.
    destruct (stopLogging_module page this) as (-> & -> & _).
    split; [done|]. by intros [? ?].
  - destruct (scheduleProcessing_fields this) as (H1 & H2 & _).
    revert Hset. by apply throttlerSet_fields.
  - destruct (process_same_module page this) as (H1 & H2 & _).
    revert Hset. by apply throttlerSet_fields.
  - unfold onSelectOpen.
    destruct (loggingStates this !! el) as [state|]; [|done].
    destruct (selectOpen state); [done|].
    match goal with
    | |- context [scheduleProcessing ?s] =>
        destruct (scheduleProcessing_fields s) as (H1 & H2 & _)
    end.
    revert Hset. apply throttlerSet_fields; [by rewrite H1|by rewrite H2].
  - done.
  - done.
Qed.

(** X12.  In every driver [isLogging()] is true exactly when
    [processingThrottler] is set, so [scheduleProcessing] hands a task to
    the throttler exactly when the driver is logging. *)
Theorem scheduleProcessing_iff_logging (actions : list Action) :
  (logging (runAll actions) = true
   ↔ is_Some (processingThrottler (runAll actions)))
  ∧ scheduled (scheduleProcessing (runAll actions))
    = scheduled (runAll actions) + Nat.b2n (logging (runAll actions)).
Proof.
  assert (throttlerSet (runAll actions)) as Hset.
  { apply (runAll_keeps throttlerSet); [|apply run_throttlerSet].
    split; [done|]. by intros [? ?]. }
  split; [done|]. unfold throttlerSet in Hset. unfold scheduleProcessing.
  destruct (processingThrottler (runAll actions)) as [throttler|].
  - simpl. destruct Hset as [_ ->]; [simpl; lia|eauto].
  - destruct (logging (runAll actions)); [|simpl; lia].
    destruct Hset as [Hset _]. by destruct Hset.
Qed.

(** ** The listeners on the documents *)




(** ** Stopping *)







(** ** The debugging popover *)

Lemma debuggedOnly_insert there states l state :
  debuggedOnly there states →
  (processedForDebugging state = true → there) →
  debuggedOnly there (<[l := state]> states).
Proof.
  intros Hstates Hstate l' state' Hl'.
  destruct (decide (l' = l)) as [->|Hne].
  - rewrite lookup_insert_eq in Hl'. by injection Hl' as <-.
  - rewrite lookup_insert_ne in Hl' by done. exact (Hstates l' state' Hl').
Qed.

Lemma getOrCreateLoggingState_debugged there states l c p :
  debuggedOnly there states →
  debuggedOnly there (getOrCreateLoggingState states l c p).1
  ∧ (processedForDebugging (getOrCreateLoggingState states l c p).2 = true →
     there).
Proof.
  intros Hstates. unfold getOrCreateLoggingState.
  destruct (states !! l) as [state|] eqn:Hstate; simpl.
  - split; [done|]. exact (Hstates l state Hstate).
  - split; [|done]. by apply debuggedOnly_insert.
Qed.

Lemma processElement_debugged there page debugging popover pass entry :
  (debugging = true → there) →
  debuggedOnly there (passStates pass) →
  debuggedOnly there
    (passStates (processElement page debugging popover pass entry)).
Proof.
  intros Hdebugging Hstates. unfold processElement.
  destruct (getOrCreateLoggingState_debugged there (passStates pass)
              (element entry) (getLoggingConfig page (element entry))
              (elementParent entry) Hstates) as [Hcached Hown].
  destruct (getOrCreateLoggingState _ _ _ _) as [states state].
  simpl in Hcached, Hown.
  destruct (impressionLogged state); simpl.
  2: destruct (visibleOverlap page (element entry)); simpl.
  3: destruct (_ && _); simpl.
  all: destruct (processed _); simpl.
  all: destruct debugging; simpl.
  all: try destruct (processedForDebugging state) eqn:Hflag; simpl.
  all: repeat destruct (decide _); repeat destruct (_ && _); simpl.
  all: apply debuggedOnly_insert; [done|]; simpl; intros; eauto.
Qed.

Lemma processNonDomLoggable_debugged there pass entry :
  debuggedOnly there (passStates pass) →
  debuggedOnly there (passStates (processNonDomLoggable pass entry)).
Proof.
  intros Hstates. unfold processNonDomLoggable.
  destruct (getOrCreateLoggingState_debugged there (passStates pass)
              (loggable entry) (loggableConfig entry) (loggableParent entry)
              Hstates) as [Hcached Hown].
  destruct (getOrCreateLoggingState _ _ _ _) as [states state].
  simpl in Hcached, Hown.
  destruct (negb _); simpl; [done|].
  by apply debuggedOnly_insert.
Qed.

Lemma foldl_debugged {E : Type} there (step : Pass → E → Pass) :
  (∀ pass entry,
     debuggedOnly there (passStates pass) →
     debuggedOnly there (passStates (step pass entry))) →
  ∀ entries pass,
    debuggedOnly there (passStates pass) →
    debuggedOnly there (passStates (foldl step pass entries)).
Proof.
  intros Hstep entries. induction entries as [|entry entries IH]; [done|].
  intros pass Hpass. simpl. by apply IH, Hstep.
Qed.

Lemma popoverThere_fields this this' :
  veDebuggingEnabled this' = veDebuggingEnabled this →
  debugPopover this' = debugPopover this →
  loggingStates this' = loggingStates this →
  popoverThere this → popoverThere this'.
Proof. unfold popoverThere. by intros -> -> ->. Qed.

Lemma process_popoverThere page this :
  popoverThere this → popoverThere (process page this).
Proof.
  intros [Henabled Hstates]. unfold process.
  destruct (hidden page); [done|]. unfold popoverThere. simpl.
  pose proof (observeMutations_same
                (shadowRoots (getDomState page (documents this))) this) as ->.
  simpl. split; [done|]. unfold processLoops.
  apply foldl_debugged; [apply processNonDomLoggable_debugged|].
  apply foldl_debugged; [|done].
  intros pass entry. by apply processElement_debugged.
Qed.

Lemma addDocument_popoverThere page doc this :
  popoverThere this → popoverThere (addDocument page doc this).
Proof.
  intros Hthere. unfold addDocument.
  match goal with
  | |- context [observeMutations ?roots ?s] =>
      pose proof (observeMutations_same roots s) as ->
  end.
  eapply popoverThere_fields; [simpl; reflexivity..|].
  destruct (decide _); [|done]. by apply process_popoverThere.
Qed.

Lemma run_popoverThere this action :
  popoverThere this → popoverThere (run this action).
Proof.
  intros Hthere.
  destruct action as [page options|page doc|page| |page|el|l' c p|enabled]; simpl.
  - unfold startLogging. by apply addDocument_popoverThere.
  - by apply addDocument_popoverThere.
  - revert Hthere. unfold stopLogging, forgetDocuments.
    apply popoverThere_fields; simpl.
    all: by pose proof (stopLogging_same page this) as ->.
  - unfold scheduleProcessing. by destruct (processingThrottler this).
  - by apply process_popoverThere.
  - unfold onSelectOpen.
    destruct (loggingStates this !! el) as [state|] eqn:Hel; [|done].
    destruct (selectOpen state); [done|].
    destruct Hthere as [Henabled Hstates].
    unfold scheduleProcessing. simpl.
    destruct (processingThrottler this); simpl.
    all: split; [done|].
    all: apply debuggedOnly_insert; [done|]; simpl.
    all: by apply (Hstates el).
  - done.
  - destruct Hthere as [Henabled Hstates]. unfold popoverThere. simpl. split.
    + intros ->. apply orb_true_r.
    + intros l state Hl Hflag. rewrite (Hstates l state Hl Hflag). done.
Qed.

(** X16.  The popover that the debugging handlers assert is there whenever
    it can be asked for: in every driver with [veDebuggingEnabled] the
    popover has been created, and so it has in every driver that holds a
    loggable processed for debugging, whose [mouseenter] and [mouseleave]
    handlers stay on the element after debugging is turned off. *)
Theorem debugPopover_there_when_asserted (actions : list Action) :
  (veDebuggingEnabled (runAll actions) = true →
   debugPopover (runAll actions) = true)
  ∧ ∀ l state,
      loggingStates (runAll actions) !! l = Some state →
      processedForDebugging state = true →
      debugPopover (runAll actions) = true.
Proof.
  apply (runAll_keeps popoverThere); [|apply run_popoverThere].
  split; [done|]. intros l state Hl. done.
Qed.

End LoggingDriver.
